(** * cerca.py: event search and nearest bike-sharing stations

    A shallow embedding of [cerca.py] and the properties of its query
    matcher ([check_event]), its distance function ([haversine_distance]),
    its station ranker ([set_nearest_stations]) and of the two ways [main]
    collects events. *)

From Stdlib Require Import List String Ascii Bool ZArith Lia Arith.
From Stdlib Require Import Permutation Sorted.
From Stdlib Require Import Reals Lra.
Import ListNotations.

Set Implicit Arguments.
Set Warnings "-register-all".

(** ** Python results

    A call either returns a value or raises.  The only exceptions the
    modelled code can raise come from the [math] module and from [**].
    [main] catches nothing: an exception ends the program, and the objects
    at that point are seen by nobody. *)

Inductive exn : Type :=
| ValueError          (* math domain error *)
| OverflowError       (* math range error *)
| ZeroDivisionError.  (* 0.0 to a negative power *)

Inductive outcome (A : Type) : Type :=
| Returned (a : A)
| Raised (e : exn).

Arguments Returned {A} a.
Arguments Raised {A} e.

Definition bind {A B : Type} (m : outcome A) (k : A -> outcome B) : outcome B :=
  match m with
  | Returned a => k a
  | Raised e => Raised e
  end.

Notation "x <- m ;; k" := (bind m (fun x => k))
  (at level 61, m at next level, right associativity).

Definition raises {A : Type} (m : outcome A) : Prop :=
  exists e, m = Raised e.

(** ** Strings: the [in] operator of [str] *)

Open Scope string_scope.

(** [needle in haystack]: some suffix of the haystack starts with the
    needle.  The comparison is character by character. *)
Fixpoint str_in (needle haystack : string) : bool :=
  String.prefix needle haystack
  || match haystack with
     | EmptyString => false
     | String _ rest => str_in needle rest
     end.

(** What a substring is, independently of how it is searched. *)
Definition Substring (t s : string) : Prop :=
  exists before after, s = before ++ t ++ after.

Close Scope string_scope.

(** ** Search terms

    [ast.literal_eval] builds the search terms: a [str], a [list], a
    [tuple], or an object of another type.  [check_event] only asks for the
    type of the object, so an object of another type is kept as its type. *)

Inductive pytype : Type :=
| py_int | py_float | py_complex | py_bool | py_NoneType
| py_bytes | py_set | py_dict.

Inductive value : Type :=
| Str (s : string)
| PyList (items : list value)
| PyTuple (items : list value)
| Other (ty : pytype).

(** The expressions of the specification, and the Python object that
    stands for each. *)
Inductive SearchExpression : Type :=
| Term (t : string)
| Conjunction (children : list SearchExpression)
| Disjunction (children : list SearchExpression).

Fixpoint to_value (x : SearchExpression) : value :=
  match x with
  | Term t => Str t
  | Conjunction children => PyList (map to_value children)
  | Disjunction children => PyTuple (map to_value children)
  end.

(** ** Dates and times *)

Record Date : Type := mkDate { day : Z; month : Z; year : Z }.

Definition date_eqb (a b : Date) : bool :=
  (day a =? day b)%Z && (month a =? month b)%Z && (year a =? year b)%Z.

Record Time : Type := mkTime { hours : Z; minutes : Z }.

(** Two dates are the same date or they are not: the test the properties
    are stated with, which owes nothing to [date_eqb]. *)
Definition Date_eq_dec (a b : Date) : {a = b} + {a <> b}.
Proof. decide equality; apply Z.eq_dec. Defined.

(** ** Floating-point numbers

    The program computes with Python [float]s and the [math] module.  They
    are kept behind an interface: the operations the program uses, with the
    exceptions [math] and [**] raise.  [float_neg] (unary minus) is not
    used by the program, only by the laws below. *)

Class PyFloat (F : Type) : Type := {
  float_of_int : Z -> F;
  float_add : F -> F -> F;
  float_sub : F -> F -> F;
  float_mul : F -> F -> F;
  float_div : F -> F -> F;
  float_neg : F -> F;
  float_pow : F -> Z -> outcome F;
  float_le : F -> F -> bool;
  float_lt : F -> F -> bool;
  math_radians : F -> F;
  math_sin : F -> outcome F;
  math_cos : F -> outcome F;
  math_sqrt : F -> outcome F;
  math_atan2 : F -> F -> F
}.

(** Comparisons, as far as the ranker needs them.  [x <= x] fails only for
    a NaN; the laws hold for IEEE 754 numbers, NaN included. *)
Class FloatOrder (F : Type) `{PyFloat F} : Prop := {
  float_le_trans : forall a b c : F,
    float_le a b = true -> float_le b c = true -> float_le a c = true;
  float_le_total : forall a b : F,
    float_le a a = true -> float_le b b = true ->
    float_le a b = true \/ float_le b a = true;
  float_le_refl_l : forall a b : F,
    float_le a b = true -> float_le a a = true;
  float_lt_le : forall a b : F,
    float_lt a b = float_le a b && negb (float_le b a)
}.

Arguments FloatOrder F {_}.

(** Sign symmetries of the arithmetic, as far as [haversine_distance]
    needs them: subtraction the other way round gives the opposite number
    (or the same one: [x - x] is [+0.0] both ways), and the opposite goes
    through [radians], through a division and through [sin], and is lost in
    a square; [math.cos] raises nothing but [ValueError]. *)
Class FloatSigns (F : Type) `{PyFloat F} : Prop := {
  float_mul_comm : forall a b : F, float_mul a b = float_mul b a;
  float_sub_swap : forall a b : F,
    float_sub b a = float_neg (float_sub a b) \/ float_sub b a = float_sub a b;
  math_radians_neg : forall a : F,
    math_radians (float_neg a) = float_neg (math_radians a);
  float_div_neg : forall a b : F,
    float_div (float_neg a) b = float_neg (float_div a b);
  math_sin_neg : forall a : F,
    math_sin (float_neg a) = (s <- math_sin a ;; Returned (float_neg s));
  float_pow_neg_2 : forall a : F,
    float_pow (float_neg a) 2 = float_pow a 2;
  math_cos_raises : forall (a : F) (e : exn),
    math_cos a = Raised e -> e = ValueError
}.

Arguments FloatSigns F {_}.

(** ** The data model *)

Record LatLong (F : Type) : Type := mkLatLong { latitude : F; longitude : F }.

Module Station.
Record t (F : Type) : Type := mk {
  slots : Z;
  bikes : Z;
  coords : LatLong F;
  street : string;
  number : option string
}.
End Station.

(** An entry of a result list: the tuple [(station, distance)]. *)
Definition entry (F : Type) : Type := (Station.t F * F)%type.

(** What [Event.fromElementTree] reads in an [<acte>] element. *)
Record acte (F : Type) : Type := mkActe {
  acte_date : Date;
  acte_hour : option Time;
  acte_name : string;
  acte_place : string;
  acte_address : string;
  acte_coords : option (LatLong F)
}.

(** The attributes of an event, as [Event.fromElementTree] sets them: the
    name, the place and the address are [str] ([html.unescape] returns
    one), the hour and the coordinates may be [None]. *)
Module Event.
Record t (F : Type) : Type := mk {
  name : string;
  address : string;
  date : Date;
  hour : option Time;
  place : string;
  coords : option (LatLong F);
  stations_with_bikes : list (entry F);
  stations_with_slots : list (entry F)
}.

(** [Event.__init__], called with the six keywords: the two result lists
    start empty. *)
Definition init {F : Type} (date : Date) (hour : option Time)
    (name place address : string) (coords : option (LatLong F)) : t F :=
  mk name address date hour place coords [] [].

Definition fromElementTree {F : Type} (tree : acte F) : t F :=
  init (acte_date tree) (acte_hour tree) (acte_name tree)
       (acte_place tree) (acte_address tree) (acte_coords tree).

(** Assignment to the two result lists of an event. *)
Definition set_stations {F : Type} (e : t F)
    (with_slots with_bikes : list (entry F)) : t F :=
  mk (name e) (address e) (date e) (hour e) (place e) (coords e)
     with_bikes with_slots.
End Event.

(** ** The program *)

Section Program.
Context {F : Type} `{PyFloat F}.

(** *** [haversine_distance]

    The literals [6371e3], [2.0], [1.0] and the integer [2] that multiplies
    a float are the floats of the integers 6371000, 2 and 1.  The calls
    are in the order Python makes them, so that the first exception is the
    one raised. *)

Definition earth_radius : F := float_of_int 6371000.

Definition haversine_distance (origin destination : LatLong F) : outcome F :=
  let o_lon := math_radians (longitude origin) in
  let o_lat := math_radians (latitude origin) in
  let d_lon := math_radians (longitude destination) in
  let d_lat := math_radians (latitude destination) in
  let delta_lat :=
    math_radians (float_sub (latitude destination) (latitude origin)) in
  let delta_long :=
    math_radians (float_sub (longitude destination) (longitude origin)) in
  s_lat <- math_sin (float_div delta_lat (float_of_int 2)) ;;
  sq_lat <- float_pow s_lat 2 ;;
  c_o <- math_cos o_lat ;;
  c_d <- math_cos d_lat ;;
  s_long <- math_sin (float_div delta_long (float_of_int 2)) ;;
  sq_long <- float_pow s_long 2 ;;
  let a := float_add sq_lat (float_mul (float_mul c_o c_d) sq_long) in
  r1 <- math_sqrt a ;;
  r2 <- math_sqrt (float_sub (float_of_int 1) a) ;;
  let c := float_mul (float_of_int 2) (math_atan2 r1 r2) in
  Returned (float_mul earth_radius c).

(** *** [list.sort(key=...)]

    Python's sort is stable and compares keys with [<] only.  Here the
    first element is put in front of the first element of the sorted
    rest whose key is not smaller than its own.  On keys without a NaN
    every stable sort returns the same list ([list_sort_unique]). *)

Section Sort.
Variable A : Type.
Variable key : A -> F.

Fixpoint insert_sorted (x : A) (l : list A) : list A :=
  match l with
  | [] => [x]
  | y :: l' =>
      if float_lt (key y) (key x) then y :: insert_sorted x l'
      else x :: y :: l'
  end.

Fixpoint list_sort (l : list A) : list A :=
  match l with
  | [] => []
  | x :: l' => insert_sorted x (list_sort l')
  end.
End Sort.

(** *** Objects

    Events are objects: a list of events holds references, and
    [set_nearest_stations] changes the objects they refer to.  Stations
    are never changed and are kept as values. *)

Definition loc : Type := nat.

Record heap : Type := mkHeap {
  next_loc : loc;
  deref : loc -> Event.t F
}.

Definition store (h : heap) (l : loc) (e : Event.t F) : heap :=
  mkHeap (next_loc h) (fun l' => if Nat.eqb l' l then e else deref h l').

Definition alloc (e : Event.t F) (h : heap) : loc * heap :=
  (next_loc h, store (mkHeap (S (next_loc h)) (deref h)) (next_loc h) e).

(** *** [set_nearest_stations] *)

Definition append_with_slots (event : Event.t F) (x : entry F) : Event.t F :=
  Event.set_stations event
    (Event.stations_with_slots event ++ [x])
    (Event.stations_with_bikes event).

Definition append_with_bikes (event : Event.t F) (x : entry F) : Event.t F :=
  Event.set_stations event
    (Event.stations_with_slots event)
    (Event.stations_with_bikes event ++ [x]).

(** The loop over the stations, for an event at [coords]. *)
Fixpoint for_stations (coords : LatLong F) (stations : list (Station.t F))
    (max_distance : F) (event : Event.t F) : outcome (Event.t F) :=
  match stations with
  | [] => Returned event
  | station :: rest =>
      distance <- haversine_distance coords (Station.coords station) ;;
      for_stations coords rest max_distance
        (if float_le distance max_distance then
           if (0 <? Station.slots station)%Z then
             append_with_slots event (station, distance)
           else if (0 <? Station.bikes station)%Z then
             append_with_bikes event (station, distance)
           else event
         else event)
  end.

(** The two [sort] calls that end the body of the outer loop. *)
Definition sort_stations (event : Event.t F) : Event.t F :=
  Event.set_stations event
    (list_sort snd (Event.stations_with_slots event))
    (list_sort snd (Event.stations_with_bikes event)).

Fixpoint set_nearest_stations (events : list loc)
    (stations : list (Station.t F)) (max_distance : F) (h : heap)
    : outcome heap :=
  match events with
  | [] => Returned h
  | event :: rest =>
      match Event.coords (deref h event) with
      | None => set_nearest_stations rest stations max_distance h
      | Some coords =>
          e <- for_stations coords stations max_distance (deref h event) ;;
          set_nearest_stations rest stations max_distance
            (store h event (sort_stations e))
      end
  end.

(** *** [check_event] *)

Fixpoint check_event (event : Event.t F) (search_terms : value)
    : outcome bool :=
  match search_terms with
  | Str s =>
      Returned (str_in s (Event.name event)
                || str_in s (Event.place event)
                || str_in s (Event.address event))
  | PyList items =>
      (fix conjunctions (l : list value) : outcome bool :=
         match l with
         | [] => Returned true
         | elem :: rest =>
             b <- check_event event elem ;;
             if negb b then Returned false else conjunctions rest
         end) items
  | PyTuple items =>
      (fix disjunctions (l : list value) : outcome bool :=
         match l with
         | [] => Returned false
         | elem :: rest =>
             b <- check_event event elem ;;
             if b then Returned true else disjunctions rest
         end) items
  | Other _ => Returned false
  end.

(** *** [find_monthly_events], [find_today_events]

    The downloaded feed is a parameter: the [<acte>] elements in document
    order. *)

Fixpoint monthly_loop (feed : list (acte F)) (search_terms : value)
    (date : Date) (res : list loc) (h : heap) : outcome (list loc * heap) :=
  match feed with
  | [] => Returned (res, h)
  | event_tree :: rest =>
      let (event, h1) := alloc (Event.fromElementTree event_tree) h in
      keep <- (if date_eqb (Event.date (deref h1 event)) date
               then check_event (deref h1 event) search_terms
               else Returned false) ;;
      monthly_loop rest search_terms date
        (if keep then res ++ [event] else res) h1
  end.

Definition find_monthly_events (feed : list (acte F)) (search_terms : value)
    (date : Date) (h : heap) : outcome (list loc * heap) :=
  monthly_loop feed search_terms date [] h.

Fixpoint today_loop (feed : list (acte F)) (search_terms : value)
    (res : list loc) (h : heap) : outcome (list loc * heap) :=
  match feed with
  | [] => Returned (res, h)
  | event_tree :: rest =>
      let (event, h1) := alloc (Event.fromElementTree event_tree) h in
      keep <- check_event (deref h1 event) search_terms ;;
      today_loop rest search_terms
        (if keep then res ++ [event] else res) h1
  end.

Definition find_today_events (feed : list (acte F)) (search_terms : value)
    (h : heap) : outcome (list loc * heap) :=
  today_loop feed search_terms [] h.

(** *** [main]

    The parsed command line, the two feeds and the stations are
    parameters; the result is the list handed to [write_html]. *)

Record Args : Type := mkArgs {
  arg_key : value;
  arg_distance : Z;
  arg_date : option Date
}.

Definition main (args : Args) (monthly today : list (acte F))
    (bicing : list (Station.t F)) (h : heap) : outcome (list loc * heap) :=
  let search_terms := arg_key args in
  match arg_date args with
  | Some date => find_monthly_events monthly search_terms date h
  | None =>
      r <- find_today_events today search_terms h ;;
      let (events, h1) := r in
      let stations := bicing in
      h2 <- set_nearest_stations events stations
              (float_of_int (arg_distance args)) h1 ;;
      Returned (events, h2)
  end.

End Program.

Arguments heap : clear implicits.

(** ** Vocabulary of the properties *)

Section Vocabulary.
Context {F : Type} `{PyFloat F}.

(** The reference semantics of a search expression on an event. *)
Fixpoint Matches (event : Event.t F) (x : SearchExpression) : Prop :=
  match x with
  | Term t =>
      Substring t (Event.name event)
      \/ Substring t (Event.place event)
      \/ Substring t (Event.address event)
  | Conjunction children =>
      (fix all (l : list SearchExpression) : Prop :=
         match l with
         | [] => True
         | c :: rest => Matches event c /\ all rest
         end) children
  | Disjunction children =>
      (fix some (l : list SearchExpression) : Prop :=
         match l with
         | [] => False
         | c :: rest => Matches event c \/ some rest
         end) children
  end.

(** The boolean a search term stands for, without the loops. *)
Fixpoint holds (event : Event.t F) (v : value) : bool :=
  match v with
  | Str s =>
      str_in s (Event.name event)
      || str_in s (Event.place event)
      || str_in s (Event.address event)
  | PyList items => forallb (holds event) items
  | PyTuple items => existsb (holds event) items
  | Other _ => false
  end.

(** A call that returned [True]. *)
Definition returned_true (m : outcome bool) : bool :=
  match m with
  | Returned b => b
  | Raised _ => false
  end.

(** Two parts of the formula of [haversine_distance]: the square of the
    sine of half the difference of two coordinates, and the product of
    the cosines of the two latitudes. *)
Definition half_sin_squared (from to : F) : outcome F :=
  s <- math_sin (float_div (math_radians (float_sub to from))
                           (float_of_int 2)) ;;
  float_pow s 2.

Definition cos_product (o d : F) : outcome F :=
  c_o <- math_cos (math_radians o) ;;
  c_d <- math_cos (math_radians d) ;;
  Returned (float_mul c_o c_d).

(** An event of a given date. *)
Definition date_is (date : Date) (e : Event.t F) : bool :=
  if Date_eq_dec (Event.date e) date then true else false.

(** The test of [find_monthly_events] on an event. *)
Definition wanted_on (date : Date) (search_terms : value) (e : Event.t F)
    : bool :=
  date_eqb (Event.date e) date && returned_true (check_event e search_terms).

(** The distance from [coords] to every station, in the order of the
    stations; raises where [haversine_distance] first raises. *)
Fixpoint distances (coords : LatLong F) (stations : list (Station.t F))
    : outcome (list (entry F)) :=
  match stations with
  | [] => Returned []
  | station :: rest =>
      distance <- haversine_distance coords (Station.coords station) ;;
      ds <- distances coords rest ;;
      Returned ((station, distance) :: ds)
  end.

Definition within (max_distance : F) (x : entry F) : Prop :=
  float_le (snd x) max_distance = true.

Definition has_slots (s : Station.t F) : bool := (0 <? Station.slots s)%Z.
Definition has_bikes (s : Station.t F) : bool := (0 <? Station.bikes s)%Z.

(** The entries one pass over the stations appends to each list. *)
Definition new_with_slots (max_distance : F) (ds : list (entry F))
    : list (entry F) :=
  filter (fun x => float_le (snd x) max_distance && has_slots (fst x)) ds.

Definition new_with_bikes (max_distance : F) (ds : list (entry F))
    : list (entry F) :=
  filter (fun x => float_le (snd x) max_distance
                   && negb (has_slots (fst x)) && has_bikes (fst x)) ds.

(** One pass of the outer loop body over an event with coordinates. *)
Definition pass (max_distance : F) (ds : list (entry F)) (e : Event.t F)
    : Event.t F :=
  sort_stations
    (Event.set_stations e
       (Event.stations_with_slots e ++ new_with_slots max_distance ds)
       (Event.stations_with_bikes e ++ new_with_bikes max_distance ds)).

(** Ascending keys, a key equal to [d], and a key that is not a NaN. *)
Definition key_le (A : Type) (key : A -> F) (x y : A) : Prop :=
  float_le (key x) (key y) = true.

Definition key_tied (A : Type) (key : A -> F) (d : F) (x : A) : bool :=
  float_le d (key x) && float_le (key x) d.

Definition key_ok (A : Type) (key : A -> F) (x : A) : Prop :=
  float_le (key x) (key x) = true.

(** Ascending distances, and a distance equal to [d]. *)
Definition by_distance (x y : entry F) : Prop :=
  float_le (snd x) (snd y) = true.

Definition tied (d : F) (x : entry F) : bool :=
  float_le d (snd x) && float_le (snd x) d.

(** Lists that only the ranker has filled: stations with a free slot on
    one side, stations without a free slot and with a bike on the other. *)
Definition classified (e : Event.t F) : Prop :=
  Forall (fun x => has_slots (fst x) = true) (Event.stations_with_slots e)
  /\ Forall (fun x => has_slots (fst x) = false /\ has_bikes (fst x) = true)
            (Event.stations_with_bikes e).

(** An event after [k] passes of the outer loop body, the stations and the
    maximal distance being the same in each. *)
Definition ranked (stations : list (Station.t F)) (max_distance : F)
    (k : nat) (e : Event.t F) : Event.t F :=
  match Event.coords e with
  | None => e
  | Some coords =>
      match distances coords stations with
      | Returned ds => Nat.iter k (pass max_distance ds) e
      | Raised _ => e
      end
  end.

(** What a pass does not touch. *)
Definition same_but_lists (e e' : Event.t F) : Prop :=
  Event.name e' = Event.name e
  /\ Event.address e' = Event.address e
  /\ Event.date e' = Event.date e
  /\ Event.hour e' = Event.hour e
  /\ Event.place e' = Event.place e
  /\ Event.coords e' = Event.coords e.

(** Two lists in ascending order of distance, no distance a NaN. *)
Definition sorted_lists (e : Event.t F) : Prop :=
  Forall (key_ok snd) (Event.stations_with_slots e)
  /\ Sorted (key_le snd) (Event.stations_with_slots e)
  /\ Forall (key_ok snd) (Event.stations_with_bikes e)
  /\ Sorted (key_le snd) (Event.stations_with_bikes e).

(** The elements of a feed on whose event [check_event] returns [True]. *)
Definition kept (search_terms : value) (feed : list (acte F))
    : list (acte F) :=
  filter (fun t => returned_true
                     (check_event (Event.fromElementTree t) search_terms))
         feed.

(** The event [main] hands over for an element of today's feed: the new
    event as it is when it has no coordinates, and else the new event with
    the stations kept, sorted, in its two lists. *)
Definition today_result (stations : list (Station.t F)) (max_distance : F)
    (t : acte F) (e : Event.t F) : Prop :=
  match acte_coords t with
  | None => e = Event.fromElementTree t
  | Some coords =>
      exists ds,
        distances coords stations = Returned ds
        /\ e = Event.set_stations (Event.fromElementTree t)
                 (list_sort snd (new_with_slots max_distance ds))
                 (list_sort snd (new_with_bikes max_distance ds))
  end.

(** The objects a loop over a feed allocates and keeps. *)
Definition fresh_in (h h' : heap F) (n : nat) (found : list loc) : Prop :=
  next_loc h' = next_loc h + n
  /\ Forall (fun l => next_loc h <= l < next_loc h') found
  /\ NoDup found
  /\ (forall l, l < next_loc h -> deref h' l = deref h l).

(** How many times an object is in a list of references. *)
Definition occurrences (l : loc) (events : list loc) : nat :=
  count_occ Nat.eq_dec events l.

(** [n] copies of a list, one after the other. *)
Definition copies (A : Type) (n : nat) (l : list A) : list A :=
  List.concat (repeat l n).

End Vocabulary.

(** ** Real numbers as floats

    The interface read on the real numbers: exact arithmetic, [math.sqrt]
    raising on a negative number, [0.0] to a negative power raising. *)

Definition Rleb (a b : R) : bool := if Rle_dec a b then true else false.
Definition Rltb (a b : R) : bool := if Rlt_dec a b then true else false.

Definition R_pow (x : R) (n : Z) : outcome R :=
  if Req_dec_T x 0 then
    if (n <? 0)%Z then Raised ZeroDivisionError else Returned (powerRZ x n)
  else Returned (powerRZ x n).

Definition R_sqrt (x : R) : outcome R :=
  if Rlt_dec x 0 then Raised ValueError else Returned (sqrt x).

Definition R_atan2 (y x : R) : R :=
  if Rlt_dec 0 x then atan (y / x)
  else if Rlt_dec x 0 then
    if Rle_dec 0 y then atan (y / x) + PI else atan (y / x) - PI
  else if Rlt_dec 0 y then PI / 2
  else if Rlt_dec y 0 then - (PI / 2)
  else 0.

#[export] Instance Real_PyFloat : PyFloat R := {|
  float_of_int := IZR;
  float_add := Rplus;
  float_sub := Rminus;
  float_mul := Rmult;
  float_div := Rdiv;
  float_neg := Ropp;
  float_pow := R_pow;
  float_le := Rleb;
  float_lt := Rltb;
  math_radians := fun x => (x * (PI / 180))%R;
  math_sin := fun x => Returned (sin x);
  math_cos := fun x => Returned (cos x);
  math_sqrt := R_sqrt;
  math_atan2 := R_atan2
|}.

(** ** Sample data *)

Definition equator_0 : LatLong R := mkLatLong 0%R 0%R.
Definition equator_180 : LatLong R := mkLatLong 0%R 180%R.

Definition station_here : Station.t R :=
  Station.mk 3 0 equator_0 "Carrer de la Marina" (Some "12"%string).

Definition station_far : Station.t R :=
  Station.mk 5 0 equator_180 "Antimeridian" None.

Definition station_bikes : Station.t R :=
  Station.mk 0 4 equator_0 "Carrer de Mallorca" (Some "401"%string).

Definition festa_major : Event.t R :=
  Event.init (mkDate 15 8 2018) (Some (mkTime 19 30))
    "Festa Major" "Placa de la Vila" "Carrer Gran 1" (Some equator_0).

Definition fira_art : Event.t R :=
  Event.init (mkDate 15 8 2018) None
    "Fira d'Art" "Passeig de Gracia" "Passeig de Gracia 43" None.

Definition acte_festa : acte R :=
  mkActe (mkDate 15 8 2018) (Some (mkTime 19 30))
    "Festa Major" "Placa de la Vila" "Carrer Gran 1" (Some equator_0).

Definition acte_concert : acte R :=
  mkActe (mkDate 16 8 2018) None
    "Concert Jove" "Sala Apolo" "Nou de la Rambla 113" None.

Definition sample_stations : list (Station.t R) :=
  [station_here; station_bikes; station_far].

(** [festa_major] after a pass over [sample_stations] at 300 metres, and
    after a pass over [station_far] alone at 30000 kilometres. *)
Definition festa_ranked : Event.t R :=
  Event.set_stations festa_major
    [(station_here, 0%R)] [(station_bikes, 0%R)].

Definition festa_far : Event.t R :=
  Event.set_stations festa_major [(station_far, (6371000 * PI)%R)] [].

(** A heap whose objects [0], [1], ... are all [festa_major], but object
    [1], which is [fira_art]. *)
Definition sample_heap : heap R :=
  mkHeap 2 (fun l => if Nat.eqb l 1 then fira_art else festa_major).

(** * Properties *)

(** ** Results *)

Lemma Returned_inj (A : Type) (a b : A) : Returned a = Returned b -> a = b.
Proof. intros E; injection E; trivial. Qed.

Lemma Returned_not_raises (A : Type) (a : A) : ~ raises (Returned a).
Proof. intros [e E]; discriminate E. Qed.

Lemma bind_Returned (A B : Type) (m : outcome A) (k : A -> outcome B) (b : B) :
  (x <- m ;; k x) = Returned b ->
  exists a, m = Returned a /\ k a = Returned b.
Proof.
  destruct m as [a | e]; simpl; intros E.
  - exists a; split; trivial.
  - discriminate E.
Qed.

(** ** The [in] operator finds substrings *)

Lemma prefix_append (t rest : string) : String.prefix t (t ++ rest)%string = true.
Proof.
  induction t as [| c t IH]; simpl.
  - destruct rest; reflexivity.
  - destruct (ascii_dec c c) as [_ | N]; [exact IH | now elim N].
Qed.

Lemma prefix_split (t s : string) :
  String.prefix t s = true -> exists rest, s = (t ++ rest)%string.
Proof.
  revert s; induction t as [| c t IH]; intros s E.
  - exists s; reflexivity.
  - destruct s as [| c' s]; simpl in E; [discriminate E |].
    destruct (ascii_dec c c') as [-> | _]; [| discriminate E].
    destruct (IH s E) as [rest ->].
    exists rest; reflexivity.
Qed.

Lemma str_in_unfold (t s : string) :
  str_in t s
  = String.prefix t s
    || match s with
       | EmptyString => false
       | String _ rest => str_in t rest
       end.
Proof. destruct s; reflexivity. Qed.

Lemma str_in_Substring (t s : string) :
  str_in t s = true <-> Substring t s.
Proof.
  split.
  - induction s as [| c s IH]; rewrite str_in_unfold; intros E;
      apply orb_true_iff in E; destruct E as [E | E].
    + destruct (prefix_split _ _ E) as [rest ->].
      exists EmptyString, rest; reflexivity.
    + discriminate E.
    + destruct (prefix_split _ _ E) as [rest ->].
      exists EmptyString, rest; reflexivity.
    + destruct (IH E) as (before & after & ->).
      exists (String c before), after; reflexivity.
  - intros (before & after & ->).
    induction before as [| c before IH]; rewrite str_in_unfold.
    + simpl append at 1. rewrite prefix_append; reflexivity.
    + simpl append; cbv beta iota. rewrite IH; apply orb_true_r.
Qed.

(** ** Induction on nested terms *)

Lemma value_nested_ind (P : value -> Prop) :
  (forall s, P (Str s)) ->
  (forall items, Forall P items -> P (PyList items)) ->
  (forall items, Forall P items -> P (PyTuple items)) ->
  (forall ty, P (Other ty)) ->
  forall v, P v.
Proof.
  intros HS HL HT HO.
  fix IH 1.
  intros [s | items | items | ty].
  - apply HS.
  - apply HL; induction items as [| v items IHitems]; constructor;
      [apply IH | exact IHitems].
  - apply HT; induction items as [| v items IHitems]; constructor;
      [apply IH | exact IHitems].
  - apply HO.
Qed.

Lemma SearchExpression_nested_ind (P : SearchExpression -> Prop) :
  (forall t, P (Term t)) ->
  (forall children, Forall P children -> P (Conjunction children)) ->
  (forall children, Forall P children -> P (Disjunction children)) ->
  forall x, P x.
Proof.
  intros HT HC HD.
  fix IH 1.
  intros [t | children | children].
  - apply HT.
  - apply HC; induction children as [| c children IHc]; constructor;
      [apply IH | exact IHc].
  - apply HD; induction children as [| c children IHc]; constructor;
      [apply IH | exact IHc].
Qed.

(** ** The matcher *)

Section Matcher.
Context {F : Type}.
Implicit Types (event : Event.t F) (v t : value).

(** The two loops of [check_event] compute [all] and [any]. *)
Lemma check_event_holds event v :
  check_event event v = Returned (holds event v).
Proof.
  induction v as [s | items IH | items IH | ty] using value_nested_ind;
    try reflexivity.
  - simpl. induction IH as [| elem rest E _ IHrest]; [reflexivity |].
    simpl; rewrite E; simpl.
    destruct (holds event elem); simpl; [exact IHrest | reflexivity].
  - simpl. induction IH as [| elem rest E _ IHrest]; [reflexivity |].
    simpl; rewrite E; simpl.
    destruct (holds event elem); simpl; [reflexivity | exact IHrest].
Qed.

Lemma check_event_returns event v :
  exists b, check_event event v = Returned b.
Proof. exists (holds event v); apply check_event_holds. Qed.

Lemma holds_Matches event (x : SearchExpression) :
  holds event (to_value x) = true <-> Matches event x.
Proof.
  induction x as [t | children IH | children IH]
    using SearchExpression_nested_ind.
  - simpl. rewrite !orb_true_iff, !str_in_Substring. tauto.
  - simpl. induction IH as [| c rest E _ IHrest]; simpl; [tauto |].
    rewrite andb_true_iff, E, IHrest. tauto.
  - simpl. induction IH as [| c rest E _ IHrest]; simpl.
    + split; [discriminate | tauto].
    + rewrite orb_true_iff, E, IHrest. tauto.
Qed.

(** C1 (as amended): on a search term that is neither a string nor a list
    nor a tuple, [check_event] raises nothing: it returns [False], for
    every event. *)
Theorem check_event_other_kind event (ty : pytype) :
  check_event event (Other ty) = Returned false
  /\ ~ raises (check_event event (Other ty)).
Proof. split; [reflexivity | apply Returned_not_raises]. Qed.

(** C2: on the Python object of a search expression, [check_event]
    returns a boolean, and it returns [True] exactly when the expression
    matches the event in the reference semantics: a term is a substring of
    the name, the place or the address, character for character; a
    conjunction has all its children matching (the empty one matches); a
    disjunction has a child matching (the empty one does not). *)
Theorem check_event_reference event (x : SearchExpression) :
  exists b : bool,
    check_event event (to_value x) = Returned b
    /\ (b = true <-> Matches event x).
Proof.
  exists (holds event (to_value x)); split.
  - apply check_event_holds.
  - apply holds_Matches.
Qed.

(** C6: the matcher is monotonic.  A sub-term on which it returns [True],
    put anywhere among the members of a disjunction on which it returns
    [True], leaves the result [True]; taken out of a conjunction on which
    it returns [False], it leaves the result [False]. *)
Theorem check_event_monotonic event t (before after : list value) :
  check_event event t = Returned true ->
  (check_event event (PyTuple (before ++ after)) = Returned true ->
   check_event event (PyTuple (before ++ t :: after)) = Returned true)
  /\ (check_event event (PyList (before ++ t :: after)) = Returned false ->
      check_event event (PyList (before ++ after)) = Returned false).
Proof.
  rewrite !check_event_holds; intros Ht; apply Returned_inj in Ht.
  split; intros E; apply Returned_inj in E; f_equal; simpl in *.
  - rewrite existsb_app in *; simpl.
    apply orb_true_iff in E; destruct E as [E | E]; rewrite E;
      rewrite ?orb_true_r; reflexivity.
  - rewrite forallb_app in *; simpl in E; rewrite Ht in E; exact E.
Qed.

(** C10: the result depends on the event through its name, its place and
    its address only: two events that agree on the three get the same
    result on every search term, whatever their date, hour, coordinates
    and result lists. *)
Theorem check_event_text_fields_only (e1 e2 : Event.t F) v :
  Event.name e1 = Event.name e2 ->
  Event.place e1 = Event.place e2 ->
  Event.address e1 = Event.address e2 ->
  check_event e1 v = check_event e2 v.
Proof.
  intros En Ep Ea.
  induction v as [s | items IH | items IH | ty] using value_nested_ind;
    simpl; try reflexivity.
  - rewrite En, Ep, Ea; reflexivity.
  - induction IH as [| elem rest E _ IHrest]; [reflexivity |].
    rewrite E, IHrest; reflexivity.
  - induction IH as [| elem rest E _ IHrest]; [reflexivity |].
    rewrite E, IHrest; reflexivity.
Qed.

End Matcher.

(** ** The distance *)

Section Distance.
Context {F : Type} `{FloatSigns F}.

Lemma haversine_distance_parts (origin destination : LatLong F) :
  haversine_distance origin destination
  = (sq_lat <- half_sin_squared (latitude origin) (latitude destination) ;;
     cc <- cos_product (latitude origin) (latitude destination) ;;
     sq_long <- half_sin_squared (longitude origin) (longitude destination) ;;
     let a := float_add sq_lat (float_mul cc sq_long) in
     r1 <- math_sqrt a ;;
     r2 <- math_sqrt (float_sub (float_of_int 1) a) ;;
     Returned (float_mul earth_radius
                 (float_mul (float_of_int 2) (math_atan2 r1 r2)))).
Proof.
  unfold haversine_distance, half_sin_squared, cos_product.
  destruct (math_sin _) as [s1 | e1]; simpl; [| reflexivity].
  destruct (float_pow s1 2) as [p1 | e1]; simpl; [| reflexivity].
  destruct (math_cos _) as [c1 | e1]; simpl; [| reflexivity].
  destruct (math_cos _) as [c2 | e2]; simpl; [| reflexivity].
  destruct (math_sin _) as [s2 | e2]; simpl; reflexivity.
Qed.

Lemma half_sin_squared_swap (u v : F) :
  half_sin_squared u v = half_sin_squared v u.
Proof.
  unfold half_sin_squared.
  destruct (float_sub_swap v u) as [E | E]; rewrite E; [| reflexivity].
  rewrite math_radians_neg, float_div_neg, math_sin_neg.
  destruct (math_sin _) as [s | e]; simpl; [| reflexivity].
  symmetry; apply float_pow_neg_2.
Qed.

Lemma cos_product_swap (u v : F) : cos_product u v = cos_product v u.
Proof.
  unfold cos_product.
  destruct (math_cos (math_radians u)) as [cu | eu] eqn:Eu;
    destruct (math_cos (math_radians v)) as [cv | ev] eqn:Ev;
    simpl; try reflexivity.
  - rewrite float_mul_comm; reflexivity.
  - rewrite (math_cos_raises _ Eu), (math_cos_raises _ Ev); reflexivity.
Qed.

(** C7: the distance is symmetric: both ways round, [haversine_distance]
    returns the same number or raises the same exception. *)
Theorem haversine_distance_symmetric (a b : LatLong F) :
  haversine_distance a b = haversine_distance b a.
Proof.
  rewrite !haversine_distance_parts.
  rewrite (half_sin_squared_swap (latitude a)),
          (half_sin_squared_swap (longitude a)),
          (cos_product_swap (latitude a)).
  reflexivity.
Qed.

End Distance.

(** ** The real numbers satisfy the laws *)

Lemma Rleb_true (a b : R) : Rleb a b = true <-> (a <= b)%R.
Proof.
  unfold Rleb; destruct (Rle_dec a b); split; intros; try discriminate;
    trivial; contradiction.
Qed.

Lemma Rleb_false (a b : R) : Rleb a b = false <-> (b < a)%R.
Proof.
  unfold Rleb; destruct (Rle_dec a b); split; intros; try discriminate;
    trivial; lra.
Qed.

Lemma Rltb_true (a b : R) : Rltb a b = true <-> (a < b)%R.
Proof.
  unfold Rltb; destruct (Rlt_dec a b); split; intros; try discriminate;
    trivial; contradiction.
Qed.

#[export] Instance Real_FloatOrder : FloatOrder R.
Proof.
  split; simpl.
  - intros a b c; rewrite !Rleb_true; lra.
  - intros a b; rewrite !Rleb_true; lra.
  - intros a b; rewrite !Rleb_true; lra.
  - intros a b; unfold Rltb, Rleb.
    destruct (Rlt_dec a b), (Rle_dec a b), (Rle_dec b a); simpl;
      trivial; lra.
Qed.

#[export] Instance Real_FloatSigns : FloatSigns R.
Proof.
  split; simpl.
  - intros a b; apply Rmult_comm.
  - intros a b; left; ring.
  - intros a; ring.
  - intros a b; unfold Rdiv; ring.
  - intros a; rewrite sin_neg; reflexivity.
  - intros a; unfold R_pow.
    destruct (Req_dec_T (- a) 0), (Req_dec_T a 0); simpl;
      try (f_equal; ring); exfalso; lra.
  - intros a e E; discriminate E.
Qed.

(** The symmetry, between two points of the equator. *)
Lemma haversine_distance_symmetric_witness :
  haversine_distance equator_0 equator_180
  = haversine_distance equator_180 equator_0.
Proof.
  exact (@haversine_distance_symmetric R Real_PyFloat Real_FloatSigns
           equator_0 equator_180).
Defined.

(** ** Sorting *)

Section SortFacts.
Context {F : Type} `{PyFloat F}.
Variable A : Type.
Variable key : A -> F.

Lemma insert_sorted_perm (x : A) (l : list A) :
  Permutation (insert_sorted key x l) (x :: l).
Proof.
  induction l as [| y l IH]; simpl; [apply Permutation_refl |].
  destruct (float_lt (key y) (key x)).
  - apply perm_trans with (y :: x :: l); [| apply perm_swap].
    apply perm_skip, IH.
  - apply Permutation_refl.
Qed.

Lemma list_sort_perm (l : list A) : Permutation (list_sort key l) l.
Proof.
  induction l as [| x l IH]; simpl; [apply perm_nil |].
  apply perm_trans with (x :: list_sort key l);
    [apply insert_sorted_perm | apply perm_skip, IH].
Qed.

Lemma list_sort_In (l : list A) (x : A) : In x (list_sort key l) <-> In x l.
Proof.
  split; apply Permutation_in;
    [| apply Permutation_sym]; apply list_sort_perm.
Qed.

Lemma list_sort_Forall (P : A -> Prop) (l : list A) :
  Forall P l -> Forall P (list_sort key l).
Proof.
  apply Permutation_Forall, Permutation_sym, list_sort_perm.
Qed.

Context `{!FloatOrder F}.

Lemma not_lt_le (x y : A) :
  key_ok key x -> key_ok key y ->
  float_lt (key y) (key x) = false -> key_le key x y.
Proof.
  unfold key_ok, key_le; intros Hx Hy E.
  rewrite float_lt_le in E.
  destruct (float_le_total _ _ Hx Hy) as [L | L]; [exact L |].
  rewrite L in E; simpl in E.
  destruct (float_le (key x) (key y)); [reflexivity | discriminate E].
Qed.

Lemma lt_le (x y : A) : float_lt (key y) (key x) = true -> key_le key y x.
Proof.
  unfold key_le; rewrite float_lt_le; intros E.
  apply andb_true_iff in E; tauto.
Qed.

Lemma insert_sorted_HdRel (a x : A) (l : list A) :
  key_le key a x -> HdRel (key_le key) a l -> HdRel (key_le key) a (insert_sorted key x l).
Proof.
  intros Hax Hal; destruct l as [| y l]; simpl; [constructor; exact Hax |].
  destruct (float_lt (key y) (key x)); constructor;
    [inversion Hal; assumption | exact Hax].
Qed.

Lemma insert_sorted_Sorted (x : A) (l : list A) :
  key_ok key x -> Forall (key_ok key) l ->
  Sorted (key_le key) l -> Sorted (key_le key) (insert_sorted key x l).
Proof.
  intros Hx Hl Hs; induction Hs as [| y l Hs IH Hd]; simpl.
  - repeat constructor.
  - inversion Hl as [| ? ? Hy Hl']; subst.
    destruct (float_lt (key y) (key x)) eqn:E.
    + constructor; [apply IH, Hl' |].
      apply insert_sorted_HdRel; [apply lt_le, E | exact Hd].
    + constructor; [constructor; assumption |].
      constructor; apply not_lt_le; assumption.
Qed.

Lemma list_sort_Sorted (l : list A) :
  Forall (key_ok key) l -> Sorted (key_le key) (list_sort key l).
Proof.
  induction 1 as [| x l Hx Hl IH]; simpl; [constructor |].
  apply insert_sorted_Sorted; [exact Hx | | exact IH].
  apply list_sort_Forall, Hl.
Qed.

(** The sort is stable: among equal keys the order is the one before. *)
Lemma insert_sorted_tied (d : F) (x : A) (l : list A) :
  filter (key_tied key d) (insert_sorted key x l) = filter (key_tied key d) (x :: l).
Proof.
  induction l as [| y l IH]; [reflexivity |].
  simpl insert_sorted.
  destruct (float_lt (key y) (key x)) eqn:E; [| reflexivity].
  simpl filter at 1; rewrite IH; simpl.
  destruct (key_tied key d y) eqn:Ty, (key_tied key d x) eqn:Tx; try reflexivity.
  exfalso.
  unfold key_tied in Ty, Tx.
  apply andb_true_iff in Ty, Tx; destruct Ty as [Ty1 Ty2], Tx as [Tx1 Tx2].
  rewrite float_lt_le in E; apply andb_true_iff in E; destruct E as [_ E].
  rewrite (float_le_trans _ _ _ Tx2 Ty1) in E; discriminate E.
Qed.

Lemma list_sort_tied (d : F) (l : list A) :
  filter (key_tied key d) (list_sort key l) = filter (key_tied key d) l.
Proof.
  induction l as [| x l IH]; [reflexivity |].
  simpl list_sort; rewrite insert_sorted_tied; simpl; rewrite IH; reflexivity.
Qed.

Lemma key_le_trans (x y z : A) :
  key_le key x y -> key_le key y z -> key_le key x z.
Proof. unfold key_le; apply float_le_trans. Qed.

(** The first element of a sorted list is not greater than any other. *)
Lemma Sorted_head_le (x y : A) (l : list A) :
  key_ok key x -> Sorted (key_le key) (x :: l) -> In y (x :: l) ->
  key_le key x y.
Proof.
  intros Hx Hs Hy.
  destruct Hy as [<- | Hy]; [exact Hx |].
  apply Sorted_StronglySorted in Hs; [| exact key_le_trans].
  inversion Hs as [| ? ? _ Hall]; subst.
  rewrite Forall_forall in Hall; apply Hall, Hy.
Qed.

(** A sorted list is known by its elements of each key, in their order:
    there is one stable way to sort a list, and [list_sort] is it. *)
Lemma stable_sorted_unique (l1 l2 : list A) :
  Forall (key_ok key) l1 -> Forall (key_ok key) l2 ->
  Sorted (key_le key) l1 -> Sorted (key_le key) l2 ->
  (forall d, filter (key_tied key d) l1 = filter (key_tied key d) l2) ->
  l1 = l2.
Proof.
  revert l2; induction l1 as [| x1 t1 IH]; intros l2 O1 O2 S1 S2 E.
  - destruct l2 as [| x2 t2]; [reflexivity |].
    inversion O2 as [| ? ? Hx2 _]; subst.
    specialize (E (key x2)); simpl in E.
    unfold key_tied in E at 1; unfold key_ok in Hx2; rewrite Hx2 in E.
    discriminate E.
  - inversion O1 as [| ? ? Hx1 O1']; subst.
    assert (T1 : key_tied key (key x1) x1 = true)
      by (unfold key_tied; unfold key_ok in Hx1; rewrite Hx1; reflexivity).
    destruct l2 as [| x2 t2].
    { specialize (E (key x1)); simpl in E; rewrite T1 in E; discriminate E. }
    inversion O2 as [| ? ? Hx2 O2']; subst.
    assert (T2 : key_tied key (key x2) x2 = true)
      by (unfold key_tied; unfold key_ok in Hx2; rewrite Hx2; reflexivity).
    assert (L21 : key_le key x2 x1).
    { apply Sorted_head_le with (l := t2); [exact Hx2 | exact S2 |].
      assert (I : In x1 (filter (key_tied key (key x1)) (x2 :: t2)))
        by (rewrite <- E; simpl; rewrite T1; left; reflexivity).
      apply filter_In in I; apply I. }
    assert (L12 : key_le key x1 x2).
    { apply Sorted_head_le with (l := t1); [exact Hx1 | exact S1 |].
      assert (I : In x2 (filter (key_tied key (key x2)) (x1 :: t1)))
        by (rewrite E; simpl; rewrite T2; left; reflexivity).
      apply filter_In in I; apply I. }
    assert (X : x1 = x2).
    { pose proof (E (key x1)) as E1; simpl in E1; rewrite T1 in E1.
      unfold key_tied in E1 at 2; unfold key_le in L12, L21.
      rewrite L12, L21 in E1; simpl in E1.
      injection E1; trivial. }
    subst x2; f_equal.
    apply IH; trivial.
    + inversion S1; assumption.
    + inversion S2; assumption.
    + intros d; specialize (E d); simpl in E.
      destruct (key_tied key d x1); [injection E; trivial | exact E].
Qed.

Lemma list_sort_unique (l sorted : list A) :
  Forall (key_ok key) l -> Forall (key_ok key) sorted ->
  Sorted (key_le key) sorted ->
  (forall d, filter (key_tied key d) sorted = filter (key_tied key d) l) ->
  sorted = list_sort key l.
Proof.
  intros Ol Os Ss E.
  apply stable_sorted_unique; trivial.
  - apply list_sort_Forall, Ol.
  - apply list_sort_Sorted, Ol.
  - intros d; rewrite list_sort_tied; apply E.
Qed.

End SortFacts.

(** ** The ranker *)

Section Ranker.
Context {F : Type} `{PyFloat F}.
Implicit Types (e : Event.t F) (h : heap F) (l : loc) (events : list loc)
  (stations : list (Station.t F)) (ds : list (entry F)).

Lemma set_stations_same e :
  Event.set_stations e (Event.stations_with_slots e)
    (Event.stations_with_bikes e) = e.
Proof. destruct e; reflexivity. Qed.

(** The loop over the stations appends, in the order of the stations, the
    entries of the stations it keeps. *)
Lemma for_stations_distances coords stations max_distance e :
  for_stations coords stations max_distance e
  = (ds <- distances coords stations ;;
     Returned (Event.set_stations e
                 (Event.stations_with_slots e
                  ++ new_with_slots max_distance ds)
                 (Event.stations_with_bikes e
                  ++ new_with_bikes max_distance ds))).
Proof.
  revert e; induction stations as [| station rest IH]; intros e; simpl.
  - unfold new_with_slots, new_with_bikes; simpl.
    rewrite !app_nil_r, set_stations_same; reflexivity.
  - destruct (haversine_distance coords (Station.coords station))
      as [distance | err]; simpl; [| reflexivity].
    rewrite IH.
    destruct (distances coords rest) as [ds | err]; simpl; [| reflexivity].
    f_equal.
    unfold new_with_slots, new_with_bikes, has_slots, has_bikes; simpl.
    destruct (float_le distance max_distance); simpl; [| reflexivity].
    destruct (0 <? Station.slots station)%Z; simpl.
    + rewrite <- app_assoc; reflexivity.
    + destruct (0 <? Station.bikes station)%Z; simpl;
        [rewrite <- app_assoc |]; reflexivity.
Qed.

Lemma pass_coords max_distance ds e :
  Event.coords (pass max_distance ds e) = Event.coords e.
Proof. reflexivity. Qed.

Lemma iter_pass_coords max_distance ds (k : nat) e :
  Event.coords (Nat.iter k (pass max_distance ds) e) = Event.coords e.
Proof. induction k as [| k IH]; [reflexivity | exact IH]. Qed.

Lemma ranked_coords stations max_distance (k : nat) e :
  Event.coords (ranked stations max_distance k e) = Event.coords e.
Proof.
  unfold ranked.
  destruct (Event.coords e) as [c |] eqn:E; [| exact E].
  destruct (distances c stations); [| exact E].
  rewrite iter_pass_coords; exact E.
Qed.

Lemma ranked_0 stations max_distance e :
  ranked stations max_distance 0 e = e.
Proof.
  unfold ranked; destruct (Event.coords e) as [c |]; [| reflexivity].
  destruct (distances c stations); reflexivity.
Qed.

Lemma ranked_no_coords stations max_distance (k : nat) e :
  Event.coords e = None -> ranked stations max_distance k e = e.
Proof. unfold ranked; intros ->; reflexivity. Qed.

Lemma ranked_S stations max_distance (k : nat) e coords ds :
  Event.coords e = Some coords ->
  distances coords stations = Returned ds ->
  ranked stations max_distance k (pass max_distance ds e)
  = ranked stations max_distance (S k) e.
Proof.
  intros Ec Ed; unfold ranked.
  rewrite pass_coords, Ec, Ed.
  symmetry; apply Nat.iter_succ_r.
Qed.

Lemma deref_store_same h l e : deref (store h l e) l = e.
Proof. simpl; rewrite Nat.eqb_refl; reflexivity. Qed.

Lemma deref_store_other h l l' e : l' <> l -> deref (store h l e) l' = deref h l'.
Proof. intros N; simpl. apply Nat.eqb_neq in N; rewrite N; reflexivity. Qed.

Lemma occurrences_cons_same l events :
  occurrences l (l :: events) = S (occurrences l events).
Proof. unfold occurrences; simpl. destruct (Nat.eq_dec l l); [reflexivity | contradiction]. Qed.

Lemma occurrences_cons_other l l0 events :
  l <> l0 -> occurrences l (l0 :: events) = occurrences l events.
Proof.
  intros N; unfold occurrences; simpl.
  destruct (Nat.eq_dec l0 l) as [E | _]; [symmetry in E; contradiction | reflexivity].
Qed.

(** What the call leaves in each object: as many passes as the object is
    in the list of events. *)
Lemma set_nearest_stations_ranked events stations max_distance h h' :
  set_nearest_stations events stations max_distance h = Returned h' ->
  forall l,
    deref h' l
    = ranked stations max_distance (occurrences l events) (deref h l).
Proof.
  revert h; induction events as [| l0 rest IH]; intros h E l.
  - simpl in E; apply Returned_inj in E; subst h'.
    symmetry; apply ranked_0.
  - simpl in E.
    destruct (Event.coords (deref h l0)) as [c0 |] eqn:Ec.
    + rewrite for_stations_distances in E.
      destruct (distances c0 stations) as [ds0 | err] eqn:Ed;
        simpl in E; [| discriminate E].
      rewrite (IH _ E l).
      destruct (Nat.eq_dec l l0) as [-> | N].
      * rewrite deref_store_same, occurrences_cons_same.
        apply (@ranked_S stations max_distance _ _ c0 ds0 Ec Ed).
      * rewrite deref_store_other, occurrences_cons_other by exact N.
        reflexivity.
    + rewrite (IH _ E l).
      destruct (Nat.eq_dec l l0) as [-> | N].
      * rewrite !ranked_no_coords by exact Ec; reflexivity.
      * rewrite occurrences_cons_other by exact N; reflexivity.
Qed.

(** The call returns when the distances of every event with coordinates
    can be computed. *)
Lemma set_nearest_stations_returns events stations max_distance h :
  (forall l coords, In l events -> Event.coords (deref h l) = Some coords ->
     exists ds, distances coords stations = Returned ds) ->
  exists h', set_nearest_stations events stations max_distance h = Returned h'.
Proof.
  revert h; induction events as [| l0 rest IH]; intros h Hd; simpl.
  - exists h; reflexivity.
  - destruct (Event.coords (deref h l0)) as [c0 |] eqn:Ec.
    + rewrite for_stations_distances.
      destruct (Hd l0 c0 (or_introl eq_refl) Ec) as [ds0 Ed].
      rewrite Ed; simpl.
      apply IH; intros l c Hin Hc.
      apply (Hd l c (or_intror Hin)).
      destruct (Nat.eq_dec l l0) as [-> | N].
      * rewrite deref_store_same in Hc; simpl in Hc. congruence.
      * rewrite deref_store_other in Hc by exact N; exact Hc.
    + apply IH; intros l c Hin Hc; apply (Hd l c (or_intror Hin) Hc).
Qed.

Lemma set_nearest_stations_distances events stations max_distance h h' :
  set_nearest_stations events stations max_distance h = Returned h' ->
  forall l coords, In l events -> Event.coords (deref h l) = Some coords ->
    exists ds, distances coords stations = Returned ds.
Proof.
  revert h; induction events as [| l0 rest IH]; intros h E l c Hin Hc.
  - destruct Hin.
  - simpl in E.
    destruct (Event.coords (deref h l0)) as [c0 |] eqn:Ec.
    + rewrite for_stations_distances in E.
      destruct (distances c0 stations) as [ds0 | err] eqn:Ed;
        simpl in E; [| discriminate E].
      destruct (Nat.eq_dec l l0) as [-> | N].
      * exists ds0; congruence.
      * destruct Hin as [-> | Hin]; [contradiction N; reflexivity |].
        apply (IH _ E l c Hin).
        rewrite deref_store_other by exact N; exact Hc.
    + destruct Hin as [-> | Hin]; [congruence |].
      apply (IH _ E l c Hin Hc).
Qed.

(** An event without coordinates can be taken out of the list of events:
    the call returns the same heap or raises the same exception. *)
Lemma set_nearest_stations_without before after stations max_distance h l :
  Event.coords (deref h l) = None ->
  set_nearest_stations (before ++ l :: after) stations max_distance h
  = set_nearest_stations (before ++ after) stations max_distance h.
Proof.
  revert h; induction before as [| l0 before IH]; intros h Ec; simpl.
  - rewrite Ec; reflexivity.
  - destruct (Event.coords (deref h l0)) as [c0 |] eqn:E0; [| apply IH, Ec].
    destruct (for_stations c0 stations max_distance (deref h l0))
      as [e | err]; simpl; [| reflexivity].
    apply IH.
    destruct (Nat.eq_dec l l0) as [-> | N]; [congruence |].
    rewrite deref_store_other by exact N; exact Ec.
Qed.

End Ranker.

(** ** Passes over one list *)

Section Passes.
Context {F : Type} `{PyFloat F}.
Implicit Types (old new : list (entry F)) (k : nat).

Lemma copies_S (A : Type) k (l : list A) : copies (S k) l = l ++ copies k l.
Proof. reflexivity. Qed.

Lemma copies_snoc (A : Type) k (l : list A) : copies k l ++ l = copies (S k) l.
Proof.
  induction k as [| k IH];
    [unfold copies; simpl; rewrite app_nil_r; reflexivity |].
  rewrite copies_S, <- app_assoc, IH; reflexivity.
Qed.

Lemma copies_In (A : Type) k (l : list A) (x : A) :
  In x (copies k l) <-> k <> 0 /\ In x l.
Proof.
  induction k as [| k IH].
  - unfold copies; simpl; split; [tauto | intros [N _]; now elim N].
  - rewrite copies_S, in_app_iff, IH; split; [| tauto].
    intros [I | [_ I]]; split; trivial; discriminate.
Qed.

(** [k] passes over a list: [new] is appended and the list sorted, each
    time. *)
Lemma passes_perm k old new :
  Permutation
    (Nat.iter k (fun L => list_sort snd (L ++ new)) old)
    (old ++ copies k new).
Proof.
  induction k as [| k IH]; simpl Nat.iter.
  - unfold copies; simpl; rewrite app_nil_r; apply Permutation_refl.
  - eapply perm_trans; [apply list_sort_perm |].
    rewrite <- copies_snoc, app_assoc.
    apply Permutation_app_tail, IH.
Qed.

Lemma passes_In k old new (x : entry F) :
  In x (Nat.iter k (fun L => list_sort snd (L ++ new)) old)
  <-> In x old \/ (k <> 0 /\ In x new).
Proof.
  rewrite <- copies_In, <- in_app_iff.
  split; apply Permutation_in;
    [| apply Permutation_sym]; apply passes_perm.
Qed.

Lemma passes_Forall (P : entry F -> Prop) k old new :
  Forall P old -> Forall P new ->
  Forall P (Nat.iter k (fun L => list_sort snd (L ++ new)) old).
Proof.
  intros Ho Hn; apply Forall_forall; intros x Hx.
  apply passes_In in Hx; destruct Hx as [Hx | [_ Hx]];
    [revert x Hx; apply Forall_forall, Ho
    | revert x Hx; apply Forall_forall, Hn].
Qed.

Context `{!FloatOrder F}.

Lemma within_ok max_distance (x : entry F) :
  within max_distance x -> key_ok snd x.
Proof. unfold within, key_ok; apply float_le_refl_l. Qed.

Lemma passes_Sorted max_distance k old new :
  k <> 0 ->
  Forall (within max_distance) old -> Forall (within max_distance) new ->
  Sorted by_distance (Nat.iter k (fun L => list_sort snd (L ++ new)) old).
Proof.
  intros Hk Ho Hn; destruct k as [| k]; [now elim Hk |].
  simpl Nat.iter; apply (list_sort_Sorted (key := snd)).
  apply Forall_app; split.
  - apply Forall_impl with (P := within max_distance);
      [apply within_ok |].
    apply passes_Forall; assumption.
  - apply Forall_impl with (P := within max_distance);
      [apply within_ok | exact Hn].
Qed.

Lemma passes_tied (d : F) k old new :
  filter (tied d) (Nat.iter k (fun L => list_sort snd (L ++ new)) old)
  = filter (tied d) (old ++ copies k new).
Proof.
  induction k as [| k IH]; simpl Nat.iter.
  - unfold copies; simpl; rewrite app_nil_r; reflexivity.
  - change (tied d) with (key_tied (snd (A := Station.t F)) d).
    rewrite list_sort_tied by exact _.
    change (key_tied (snd (A := Station.t F)) d) with (tied d).
    rewrite filter_app, IH, <- filter_app, <- app_assoc, copies_snoc.
    reflexivity.
Qed.

End Passes.

(** ** The lists of an event after the passes *)

Section EventLists.
Context {F : Type} `{PyFloat F}.

Lemma iter_pass_slots max_distance ds (k : nat) (e : Event.t F) :
  Event.stations_with_slots (Nat.iter k (pass max_distance ds) e)
  = Nat.iter k (fun L => list_sort snd (L ++ new_with_slots max_distance ds))
      (Event.stations_with_slots e).
Proof.
  induction k as [| k IH]; [reflexivity |].
  simpl Nat.iter; rewrite <- IH; reflexivity.
Qed.

Lemma iter_pass_bikes max_distance ds (k : nat) (e : Event.t F) :
  Event.stations_with_bikes (Nat.iter k (pass max_distance ds) e)
  = Nat.iter k (fun L => list_sort snd (L ++ new_with_bikes max_distance ds))
      (Event.stations_with_bikes e).
Proof.
  induction k as [| k IH]; [reflexivity |].
  simpl Nat.iter; rewrite <- IH; reflexivity.
Qed.

Lemma ranked_passes stations max_distance (k : nat) (e : Event.t F) coords ds :
  Event.coords e = Some coords ->
  distances coords stations = Returned ds ->
  ranked stations max_distance k e = Nat.iter k (pass max_distance ds) e.
Proof. intros Ec Ed; unfold ranked; rewrite Ec, Ed; reflexivity. Qed.

Lemma new_with_slots_within max_distance ds :
  Forall (within max_distance) (new_with_slots max_distance ds).
Proof.
  apply Forall_forall; intros x Hx.
  apply filter_In in Hx; destruct Hx as [_ Hx].
  apply andb_true_iff in Hx; apply Hx.
Qed.

Lemma new_with_bikes_within max_distance ds :
  Forall (within max_distance) (new_with_bikes max_distance ds).
Proof.
  apply Forall_forall; intros x Hx.
  apply filter_In in Hx; destruct Hx as [_ Hx].
  rewrite !andb_true_iff in Hx; apply Hx.
Qed.

Lemma distances_In coords (stations : list (Station.t F)) ds :
  distances coords stations = Returned ds ->
  forall s, In s stations ->
    exists d, haversine_distance coords (Station.coords s) = Returned d
              /\ In (s, d) ds.
Proof.
  revert ds; induction stations as [| s0 rest IH]; intros ds E s Hin;
    [destruct Hin |].
  simpl in E.
  destruct (haversine_distance coords (Station.coords s0)) as [d0 | err] eqn:Ed;
    simpl in E; [| discriminate E].
  destruct (distances coords rest) as [ds' | err]; simpl in E;
    [| discriminate E].
  apply Returned_inj in E; subst ds.
  destruct Hin as [-> | Hin].
  - exists d0; split; [exact Ed | left; reflexivity].
  - destruct (IH ds' eq_refl s Hin) as (d & Hd & Hi).
    exists d; split; [exact Hd | right; exact Hi].
Qed.

End EventLists.

(** ** What the ranker guarantees *)

Section RankerClaims.
Context {F : Type} `{PyFloat F}.
Implicit Types (h : heap F) (l : loc) (events : list loc)
  (stations : list (Station.t F)) (max_distance : F).

(** C8: an event without coordinates is skipped, and skipping raises
    nothing: wherever the event is in the list of events, the call does
    what it does on the list without it, and when a call returns the
    object is what it was before, its two result lists included; for all
    stations and all maximal distances. *)
Theorem set_nearest_stations_skips stations max_distance h l :
  Event.coords (deref h l) = None ->
  (forall before after,
     set_nearest_stations (before ++ l :: after) stations max_distance h
     = set_nearest_stations (before ++ after) stations max_distance h)
  /\ (forall events h',
        set_nearest_stations events stations max_distance h = Returned h' ->
        deref h' l = deref h l
        /\ Event.stations_with_slots (deref h' l)
           = Event.stations_with_slots (deref h l)
        /\ Event.stations_with_bikes (deref h' l)
           = Event.stations_with_bikes (deref h l)).
Proof.
  intros Ec; split.
  - intros before after; apply set_nearest_stations_without, Ec.
  - intros events h' E.
    assert (R : deref h' l = deref h l).
    { rewrite (set_nearest_stations_ranked _ _ _ _ E l).
      apply ranked_no_coords, Ec. }
    rewrite R; auto.
Qed.

(** C9: the ranker appends and never clears.  For an event with
    coordinates in the list of events, the entries its two lists held
    before the call are in them after it; each list is the list before
    to which the entries of the stations kept were appended and which was
    then sorted, once for each time the event is in the list of events,
    so that up to the order it is the list before followed by these
    entries.  A second call with the same stations and the same maximal
    distance returns as well and adds the same entries a second time. *)
Theorem set_nearest_stations_appends events stations max_distance h h' l coords :
  set_nearest_stations events stations max_distance h = Returned h' ->
  In l events ->
  Event.coords (deref h l) = Some coords ->
  let k := occurrences l events in
  let old_slots := Event.stations_with_slots (deref h l) in
  let old_bikes := Event.stations_with_bikes (deref h l) in
  (forall x, In x old_slots -> In x (Event.stations_with_slots (deref h' l)))
  /\ (forall x, In x old_bikes -> In x (Event.stations_with_bikes (deref h' l)))
  /\ exists ds,
       distances coords stations = Returned ds
       /\ let added_slots := copies k (new_with_slots max_distance ds) in
          let added_bikes := copies k (new_with_bikes max_distance ds) in
          Event.stations_with_slots (deref h' l)
          = Nat.iter k
              (fun L => list_sort snd (L ++ new_with_slots max_distance ds))
              old_slots
          /\ Event.stations_with_bikes (deref h' l)
             = Nat.iter k
                 (fun L => list_sort snd (L ++ new_with_bikes max_distance ds))
                 old_bikes
          /\ Permutation (Event.stations_with_slots (deref h' l))
                         (old_slots ++ added_slots)
          /\ Permutation (Event.stations_with_bikes (deref h' l))
                         (old_bikes ++ added_bikes)
          /\ exists h'',
               set_nearest_stations events stations max_distance h'
               = Returned h''
               /\ Permutation (Event.stations_with_slots (deref h'' l))
                              (old_slots ++ added_slots ++ added_slots)
               /\ Permutation (Event.stations_with_bikes (deref h'' l))
                              (old_bikes ++ added_bikes ++ added_bikes).
Proof.
  intros E Hin Ec k old_slots old_bikes.
  destruct (set_nearest_stations_distances _ _ _ _ E l Hin Ec) as [ds Ed].
  pose proof (set_nearest_stations_ranked _ _ _ _ E) as R.
  assert (R1 : deref h' l = Nat.iter k (pass max_distance ds) (deref h l)).
  { rewrite R; apply ranked_passes with (coords := coords); assumption. }
  assert (Ps : Permutation (Event.stations_with_slots (deref h' l))
                 (old_slots ++ copies k (new_with_slots max_distance ds))).
  { rewrite R1, iter_pass_slots; apply passes_perm. }
  assert (Pb : Permutation (Event.stations_with_bikes (deref h' l))
                 (old_bikes ++ copies k (new_with_bikes max_distance ds))).
  { rewrite R1, iter_pass_bikes; apply passes_perm. }
  split; [| split].
  - intros x Hx; apply (Permutation_in _ (Permutation_sym Ps)).
    apply in_or_app; left; exact Hx.
  - intros x Hx; apply (Permutation_in _ (Permutation_sym Pb)).
    apply in_or_app; left; exact Hx.
  - exists ds; split; [exact Ed |]; cbv zeta.
    split; [rewrite R1; apply iter_pass_slots |].
    split; [rewrite R1; apply iter_pass_bikes |].
    split; [exact Ps |]; split; [exact Pb |].
    destruct (set_nearest_stations_returns events stations max_distance h')
      as [h'' E2].
    { intros l1 c1 Hin1 Hc1.
      apply (set_nearest_stations_distances _ _ _ _ E l1 Hin1).
      rewrite R, ranked_coords in Hc1; exact Hc1. }
    exists h''; split; [exact E2 |].
    assert (Ec' : Event.coords (deref h' l) = Some coords)
      by (rewrite R, ranked_coords; exact Ec).
    assert (R2 : deref h'' l = Nat.iter k (pass max_distance ds) (deref h' l)).
    { rewrite (set_nearest_stations_ranked _ _ _ _ E2).
      apply ranked_passes with (coords := coords); assumption. }
    split.
    + rewrite R2, iter_pass_slots.
      eapply perm_trans; [apply passes_perm |].
      rewrite app_assoc; apply Permutation_app_tail, Ps.
    + rewrite R2, iter_pass_bikes.
      eapply perm_trans; [apply passes_perm |].
      rewrite app_assoc; apply Permutation_app_tail, Pb.
Qed.

(** A new event is classified: its lists are empty. *)
Lemma classified_init date hour name place address
    (coords : option (LatLong F)) :
  classified (Event.init date hour name place address coords).
Proof. split; constructor. Qed.

(** C4: the stations within the maximal distance are classified, slots
    first.  For an event with coordinates in the list of events and for
    every station, the distance is computed, and when it is within the
    maximal distance: a station with a free slot is appended to
    [stations_with_slots] only (it is in [stations_with_bikes] only if it
    was before the call); a station without a free slot and with a bike is
    appended to [stations_with_bikes] only; a station with neither is
    appended to none of the two.  When only the ranker has filled the two
    lists so far, as for a new event, no station is in both lists after
    the call, and the same holds for the calls to come. *)
Theorem set_nearest_stations_classifies events stations max_distance h h' l coords :
  set_nearest_stations events stations max_distance h = Returned h' ->
  In l events ->
  Event.coords (deref h l) = Some coords ->
  let old_slots := Event.stations_with_slots (deref h l) in
  let old_bikes := Event.stations_with_bikes (deref h l) in
  let with_slots := Event.stations_with_slots (deref h' l) in
  let with_bikes := Event.stations_with_bikes (deref h' l) in
  (forall s, In s stations ->
     exists d,
       haversine_distance coords (Station.coords s) = Returned d
       /\ (float_le d max_distance = true ->
           ((0 < Station.slots s)%Z ->
              In (s, d) with_slots
              /\ (In s (map fst with_bikes) -> In s (map fst old_bikes)))
           /\ ((Station.slots s <= 0)%Z -> (0 < Station.bikes s)%Z ->
                 In (s, d) with_bikes
                 /\ (In s (map fst with_slots) -> In s (map fst old_slots)))
           /\ ((Station.slots s <= 0)%Z -> (Station.bikes s <= 0)%Z ->
                 (In s (map fst with_slots) -> In s (map fst old_slots))
                 /\ (In s (map fst with_bikes) -> In s (map fst old_bikes)))))
  /\ (classified (deref h l) ->
      (forall s, ~ (In s (map fst with_slots) /\ In s (map fst with_bikes)))
      /\ classified (deref h' l)).
Proof.
  intros E Hin Ec old_slots old_bikes with_slots with_bikes.
  destruct (set_nearest_stations_distances _ _ _ _ E l Hin Ec) as [ds Ed].
  assert (R1 : deref h' l
               = Nat.iter (occurrences l events) (pass max_distance ds)
                   (deref h l)).
  { rewrite (set_nearest_stations_ranked _ _ _ _ E).
    apply ranked_passes with (coords := coords); assumption. }
  assert (Hk : occurrences l events <> 0).
  { unfold occurrences; apply count_occ_In with (eq_dec := Nat.eq_dec) in Hin.
    lia. }
  assert (Ns : forall s, has_slots s = false ->
                 In s (map fst with_slots) -> In s (map fst old_slots)).
  { intros s Hs Hi; apply in_map_iff in Hi; destruct Hi as (x & <- & Hx).
    unfold with_slots in Hx; rewrite R1, iter_pass_slots in Hx.
    apply passes_In in Hx; destruct Hx as [Hx | [_ Hx]];
      [apply in_map, Hx |].
    apply filter_In in Hx; destruct Hx as [_ Hx].
    apply andb_true_iff in Hx; destruct Hx as [_ Hx].
    rewrite Hx in Hs; discriminate Hs. }
  assert (Nb : forall s, has_slots s = true \/ has_bikes s = false ->
                 In s (map fst with_bikes) -> In s (map fst old_bikes)).
  { intros s Hs Hi; apply in_map_iff in Hi; destruct Hi as (x & <- & Hx).
    unfold with_bikes in Hx; rewrite R1, iter_pass_bikes in Hx.
    apply passes_In in Hx; destruct Hx as [Hx | [_ Hx]];
      [apply in_map, Hx |].
    apply filter_In in Hx; destruct Hx as [_ Hx].
    rewrite !andb_true_iff, negb_true_iff in Hx.
    destruct Hx as [[_ B1] B2].
    rewrite B1, B2 in Hs; destruct Hs; discriminate. }
  split.
  - intros s Hs.
    destruct (distances_In _ _ Ed s Hs) as (d & Hd & Hi).
    exists d; split; [exact Hd |]; intros Hle.
    split; [| split].
    + intros Hpos; apply Z.ltb_lt in Hpos.
      split; [| apply Nb; left; exact Hpos].
      unfold with_slots; rewrite R1, iter_pass_slots.
      apply passes_In; right; split; [exact Hk |].
      apply filter_In; split; [exact Hi |]; simpl.
      unfold has_slots; rewrite Hle, Hpos; reflexivity.
    + intros Hno Hpos; apply Z.ltb_ge in Hno; apply Z.ltb_lt in Hpos.
      split; [| apply Ns; exact Hno].
      unfold with_bikes; rewrite R1, iter_pass_bikes.
      apply passes_In; right; split; [exact Hk |].
      apply filter_In; split; [exact Hi |]; simpl.
      unfold has_slots, has_bikes; rewrite Hle, Hno, Hpos; reflexivity.
    + intros Hno Hnb; apply Z.ltb_ge in Hno, Hnb.
      split; [apply Ns; exact Hno | apply Nb; right; exact Hnb].
  - intros [Cs Cb].
    assert (Cs' : Forall (fun x => has_slots (fst x) = true) with_slots).
    { unfold with_slots; rewrite R1, iter_pass_slots.
      apply passes_Forall; [exact Cs |].
      apply Forall_forall; intros x Hx; apply filter_In in Hx.
      destruct Hx as [_ Hx]; apply andb_true_iff in Hx; apply Hx. }
    assert (Cb' : Forall (fun x => has_slots (fst x) = false
                                   /\ has_bikes (fst x) = true) with_bikes).
    { unfold with_bikes; rewrite R1, iter_pass_bikes.
      apply passes_Forall; [exact Cb |].
      apply Forall_forall; intros x Hx; apply filter_In in Hx.
      destruct Hx as [_ Hx]; rewrite !andb_true_iff, negb_true_iff in Hx.
      tauto. }
    split; [| split; assumption].
    intros s [Is Ib].
    apply in_map_iff in Is; destruct Is as (x & Ex & Hx).
    apply in_map_iff in Ib; destruct Ib as (y & Ey & Hy).
    rewrite Forall_forall in Cs', Cb'.
    pose proof (Cs' x Hx) as P1; destruct (Cb' y Hy) as [P2 _].
    rewrite Ex in P1; rewrite Ey in P2; congruence.
Qed.

End RankerClaims.

(** ** Sorted lists within the maximal distance *)

Section RankerOrder.
Context {F : Type} `{FloatOrder F}.
Implicit Types (h : heap F) (l : loc) (events : list loc)
  (stations : list (Station.t F)) (max_distance : F).

(** A new event has nothing beyond any maximal distance: its lists are
    empty. *)
Lemma within_init max_distance date hour name place address
    (coords : option (LatLong F)) :
  Forall (within max_distance)
    (Event.stations_with_slots
       (Event.init date hour name place address coords))
  /\ Forall (within max_distance)
       (Event.stations_with_bikes
          (Event.init date hour name place address coords)).
Proof. split; constructor. Qed.

(** C3: for an event with coordinates in the list of events, when the call
    returns, every entry of the two lists is within the maximal distance,
    the two lists are in ascending order of distance, and the entries of
    equal distance are in the order they had before the sort, the order of
    the stations.  The lists of an event are empty when it is created
    ([within_init]) and the ranker is the only one to fill them; the
    theorem asks for what this gives and the call gives back: before the
    call the lists hold entries within the maximal distance only.  The
    entries of equal distance are then the ones the list held, followed by
    the stations kept, in the order of the stations (once for each time the
    event is in the list of events). *)
Theorem set_nearest_stations_sorted events stations max_distance h h' l coords :
  set_nearest_stations events stations max_distance h = Returned h' ->
  In l events ->
  Event.coords (deref h l) = Some coords ->
  let k := occurrences l events in
  let old_slots := Event.stations_with_slots (deref h l) in
  let old_bikes := Event.stations_with_bikes (deref h l) in
  let with_slots := Event.stations_with_slots (deref h' l) in
  let with_bikes := Event.stations_with_bikes (deref h' l) in
  Forall (within max_distance) old_slots ->
  Forall (within max_distance) old_bikes ->
  Forall (within max_distance) with_slots
  /\ Forall (within max_distance) with_bikes
  /\ Sorted by_distance with_slots
  /\ Sorted by_distance with_bikes
  /\ exists ds,
       distances coords stations = Returned ds
       /\ forall d,
            filter (tied d) with_slots
            = filter (tied d)
                (old_slots ++ copies k (new_with_slots max_distance ds))
            /\ filter (tied d) with_bikes
               = filter (tied d)
                   (old_bikes ++ copies k (new_with_bikes max_distance ds)).
Proof.
  intros E Hin Ec k old_slots old_bikes with_slots with_bikes Ws Wb.
  destruct (set_nearest_stations_distances _ _ _ _ E l Hin Ec) as [ds Ed].
  assert (R1 : deref h' l = Nat.iter k (pass max_distance ds) (deref h l)).
  { rewrite (set_nearest_stations_ranked _ _ _ _ E).
    apply ranked_passes with (coords := coords); assumption. }
  assert (Hk : k <> 0).
  { unfold k, occurrences.
    apply count_occ_In with (eq_dec := Nat.eq_dec) in Hin; lia. }
  unfold with_slots, with_bikes.
  rewrite R1, iter_pass_slots, iter_pass_bikes.
  pose proof (new_with_slots_within max_distance ds) as Ns.
  pose proof (new_with_bikes_within max_distance ds) as Nb.
  repeat split.
  - apply passes_Forall; assumption.
  - apply passes_Forall; assumption.
  - apply passes_Sorted with (max_distance := max_distance); assumption.
  - apply passes_Sorted with (max_distance := max_distance); assumption.
  - exists ds; split; [exact Ed |].
    intros d; split; apply passes_tied.
Qed.

End RankerOrder.

(** ** The sample data, on the real numbers *)

Lemma R_sqrt_nonneg (x : R) : (0 <= x)%R -> R_sqrt x = Returned (sqrt x).
Proof.
  intros Hx; unfold R_sqrt; destruct (Rlt_dec x 0); [lra | reflexivity].
Qed.

Lemma R_pow_2 (x : R) : R_pow x 2 = Returned (x * x)%R.
Proof. unfold R_pow; destruct (Req_dec_T x 0); simpl; f_equal; ring. Qed.

Lemma R_atan2_0_1 : R_atan2 0 1 = 0%R.
Proof.
  unfold R_atan2; destruct (Rlt_dec 0 1); [| lra].
  replace (0 / 1)%R with 0%R by field; apply atan_0.
Qed.

Lemma R_atan2_1_0 : R_atan2 1 0 = (PI / 2)%R.
Proof.
  unfold R_atan2.
  destruct (Rlt_dec 0 0); [lra |].
  destruct (Rlt_dec 0 1); [reflexivity | lra].
Qed.

(** The distance from a point to itself is zero. *)
Lemma haversine_equator_same :
  haversine_distance equator_0 equator_0 = Returned 0%R.
Proof.
  unfold haversine_distance, earth_radius, equator_0; simpl.
  replace ((0 - 0) * (PI / 180) / 2)%R with 0%R by field.
  replace (0 * (PI / 180))%R with 0%R by field.
  rewrite sin_0, cos_0, R_pow_2; simpl.
  replace (0 * 0 + 1 * 1 * (0 * 0))%R with 0%R by ring.
  rewrite R_sqrt_nonneg by lra; simpl.
  replace (1 - 0)%R with 1%R by ring.
  rewrite R_sqrt_nonneg by lra; simpl.
  rewrite sqrt_0, sqrt_1, R_atan2_0_1; f_equal; ring.
Qed.

(** The distance to the other side of the Earth is half its
    circumference. *)
Lemma haversine_equator_far :
  haversine_distance equator_0 equator_180 = Returned (6371000 * PI)%R.
Proof.
  unfold haversine_distance, earth_radius, equator_0, equator_180; simpl.
  replace ((0 - 0) * (PI / 180) / 2)%R with 0%R by field.
  replace ((180 - 0) * (PI / 180) / 2)%R with (PI / 2)%R by field.
  replace (0 * (PI / 180))%R with 0%R by field.
  rewrite sin_0, sin_PI2, cos_0, !R_pow_2; simpl.
  replace (0 * 0 + 1 * 1 * (1 * 1))%R with 1%R by ring.
  rewrite R_sqrt_nonneg by lra; simpl.
  replace (1 - 1)%R with 0%R by ring.
  rewrite R_sqrt_nonneg by lra; simpl.
  rewrite sqrt_0, sqrt_1, R_atan2_1_0; f_equal; field.
Qed.

Lemma far_bounds : (300 < 6371000 * PI <= 30000000)%R.
Proof. pose proof PI_4; pose proof PI2_1; lra. Qed.

Lemma Rleb_0_300 : Rleb 0 300 = true.
Proof. apply Rleb_true; lra. Qed.

Lemma Rleb_far_300 : Rleb (6371000 * PI) 300 = false.
Proof. apply Rleb_false, far_bounds. Qed.

Lemma Rleb_far_30000000 : Rleb (6371000 * PI) 30000000 = true.
Proof. apply Rleb_true, far_bounds. Qed.

Lemma distances_sample :
  distances equator_0 sample_stations
  = Returned [(station_here, 0%R); (station_bikes, 0%R);
              (station_far, (6371000 * PI)%R)].
Proof.
  unfold sample_stations; simpl.
  rewrite haversine_equator_same, haversine_equator_far; reflexivity.
Qed.

Lemma rank_sample :
  set_nearest_stations [0] sample_stations 300%R sample_heap
  = Returned (store sample_heap 0 festa_ranked).
Proof.
  simpl.
  rewrite haversine_equator_same, haversine_equator_far; simpl.
  rewrite Rleb_0_300, Rleb_far_300; reflexivity.
Qed.

Lemma rank_far_first :
  set_nearest_stations [0] [station_far] 30000000%R sample_heap
  = Returned (store sample_heap 0 festa_far).
Proof.
  simpl.
  rewrite haversine_equator_far; simpl.
  rewrite Rleb_far_30000000; reflexivity.
Qed.

Lemma rank_far_second :
  set_nearest_stations [0] [station_far] 300%R (store sample_heap 0 festa_far)
  = Returned (store (store sample_heap 0 festa_far) 0 festa_far).
Proof.
  simpl.
  rewrite haversine_equator_far; simpl.
  rewrite Rleb_far_300; reflexivity.
Qed.

(** ** Collecting the events *)

(** [==] on two dates is equality of the day, the month and the year. *)
Lemma date_eqb_eq (a b : Date) : date_eqb a b = true <-> a = b.
Proof.
  destruct a as [d1 m1 y1], b as [d2 m2 y2]; unfold date_eqb; simpl.
  rewrite !andb_true_iff, !Z.eqb_eq.
  split; [intros [[-> ->] ->]; reflexivity | intros E; injection E; auto].
Qed.

Lemma date_eqb_date_is (F : Type) (date : Date) (e : Event.t F) :
  date_eqb (Event.date e) date = date_is date e.
Proof.
  unfold date_is; destruct (Date_eq_dec (Event.date e) date) as [E | N].
  - apply date_eqb_eq, E.
  - destruct (date_eqb (Event.date e) date) eqn:B; [| reflexivity].
    apply date_eqb_eq in B; contradiction.
Qed.

Lemma date_is_true (F : Type) (date : Date) (e : Event.t F) :
  date_is date e = true <-> Event.date e = date.
Proof.
  unfold date_is; destruct (Date_eq_dec (Event.date e) date);
    split; trivial; [discriminate | contradiction].
Qed.

Section Orchestrator.
Context {F : Type} `{PyFloat F}.
Implicit Types (h : heap F) (feed : list (acte F)) (res : list loc).

(** The loop allocates an object for each element of the feed, in order,
    and appends the wanted ones to the result. *)
Lemma monthly_loop_filter feed search_terms date res h :
  exists found h',
    monthly_loop feed search_terms date res h = Returned (res ++ found, h')
    /\ map (deref h') found
       = filter (wanted_on date search_terms)
           (map Event.fromElementTree feed)
    /\ Forall (fun l => next_loc h <= l) found
    /\ next_loc h <= next_loc h'
    /\ (forall l, l < next_loc h -> deref h' l = deref h l).
Proof.
  revert res h; induction feed as [| event_tree rest IH]; intros res h.
  - exists [], h; simpl; rewrite app_nil_r; repeat split; auto.
  - simpl.
    set (e0 := Event.fromElementTree event_tree).
    set (h1 := store (mkHeap (S (next_loc h)) (deref h)) (next_loc h) e0).
    rewrite Nat.eqb_refl.
    rewrite (check_event_holds e0 search_terms).
    assert (K : (if date_eqb (Event.date e0) date
                 then Returned (holds e0 search_terms)
                 else Returned false)
                = Returned (wanted_on date search_terms e0)).
    { unfold wanted_on; rewrite check_event_holds.
      destruct (date_eqb (Event.date e0) date); reflexivity. }
    rewrite K; simpl.
    destruct (IH (if wanted_on date search_terms e0
                  then res ++ [next_loc h] else res) h1)
      as (found & h' & E & M & B & N & Fr).
    simpl in B, N, Fr.
    assert (D0 : deref h' (next_loc h) = e0).
    { rewrite Fr by lia; simpl; rewrite Nat.eqb_refl; reflexivity. }
    exists ((if wanted_on date search_terms e0 then [next_loc h] else [])
            ++ found), h'.
    split; [| split; [| split; [| split]]].
    + rewrite E; destruct (wanted_on date search_terms e0);
        [rewrite <- app_assoc |]; reflexivity.
    + rewrite map_app, M.
      destruct (wanted_on date search_terms e0); simpl; rewrite ?D0;
        reflexivity.
    + apply Forall_app; split.
      * destruct (wanted_on date search_terms e0); repeat constructor.
      * eapply Forall_impl; [| exact B]; simpl; intros; lia.
    + lia.
    + intros l Hl; rewrite Fr by lia; simpl.
      assert (Nl : Nat.eqb l (next_loc h) = false) by (apply Nat.eqb_neq; lia).
      rewrite Nl; reflexivity.
Qed.

(** C5: with a date on the command line, [main] hands over the result of
    [find_monthly_events] and calls nothing else.  On the elements of the
    feed, once they are read, the call returns; the objects it returns
    are, in the order of the feed, the events of the feed whose date is
    the given date and on which [check_event] returns [True], and no
    other; their two result lists are empty; the objects that were there
    before are what they were. *)
Theorem main_specific_date (key : value) (distance : Z) (date : Date)
    (monthly today : list (acte F)) (bicing : list (Station.t F)) h :
  exists events h',
    main (mkArgs key distance (Some date)) monthly today bicing h
    = Returned (events, h')
    /\ find_monthly_events monthly key date h = Returned (events, h')
    /\ map (deref h') events
       = filter (fun e => date_is date e
                          && returned_true (check_event e key))
           (map Event.fromElementTree monthly)
    /\ Forall (fun l => Event.date (deref h' l) = date
                        /\ check_event (deref h' l) key = Returned true)
              events
    /\ (forall t, In t monthly -> acte_date t = date ->
          check_event (Event.fromElementTree t) key = Returned true ->
          In (Event.fromElementTree t) (map (deref h') events))
    /\ Forall (fun l => Event.stations_with_slots (deref h' l) = []
                        /\ Event.stations_with_bikes (deref h' l) = [])
              events
    /\ (forall l, l < next_loc h -> deref h' l = deref h l).
Proof.
  destruct (monthly_loop_filter monthly key date [] h)
    as (found & h' & E & M & _ & _ & Fr).
  exists found, h'; simpl in E.
  assert (M' : map (deref h') found
               = filter (fun e => date_is date e
                                  && returned_true (check_event e key))
                   (map Event.fromElementTree monthly)).
  { rewrite M; apply filter_ext; intros e.
    unfold wanted_on; rewrite date_eqb_date_is; reflexivity. }
  assert (In' : forall e, In e (map (deref h') found) <->
                  In e (map Event.fromElementTree monthly)
                  /\ Event.date e = date
                  /\ check_event e key = Returned true).
  { intros e; rewrite M', filter_In, andb_true_iff, date_is_true.
    rewrite (check_event_holds e key); simpl.
    split; intros (A & B & C); repeat split; trivial;
      [rewrite C; reflexivity | apply Returned_inj, C]. }
  split; [exact E |]; split; [exact E |]; split; [exact M' |].
  split; [| split; [| split; [| exact Fr]]].
  - apply Forall_forall; intros l Hl.
    apply (in_map (deref h')), In' in Hl; tauto.
  - intros t Ht Hd Hc; apply In'; split; [apply in_map, Ht |].
    split; [exact Hd | exact Hc].
  - apply Forall_forall; intros l Hl.
    apply (in_map (deref h')), In' in Hl; destruct Hl as [Hl _].
    apply in_map_iff in Hl; destruct Hl as (t & <- & _).
    split; reflexivity.
Qed.

End Orchestrator.

(** ** The properties on the sample data *)

(** The matcher on an integer: [False] is returned, nothing is raised. *)
Lemma check_event_int_returns_false :
  check_event festa_major (Other py_int) = Returned false
  /\ ~ raises (check_event festa_major (Other py_int)).
Proof. split; [reflexivity | apply Returned_not_raises]. Qed.

(** The queries of the specification. *)
Example festa_or_concert :
  check_event festa_major (PyTuple [Str "Festa"; Str "Concert"])
  = Returned true
  /\ check_event (Event.fromElementTree acte_concert)
       (PyTuple [Str "Festa"; Str "Concert"])
     = Returned true
  /\ check_event fira_art (PyTuple [Str "Festa"; Str "Concert"])
     = Returned false.
Proof. repeat split. Qed.

Example festa_and_major :
  check_event festa_major (PyList [Str "Festa"; Str "Major"]) = Returned true
  /\ check_event festa_major (PyList [Str "Festa"; Str "Jordi"])
     = Returned false
  /\ check_event festa_major (Str "festa") = Returned false
  /\ check_event festa_major (Str " Festa") = Returned false
  /\ check_event festa_major (Str "") = Returned true
  /\ check_event festa_major (PyList []) = Returned true
  /\ check_event festa_major (PyTuple []) = Returned false.
Proof. repeat split. Qed.

(** [main] with a date, on a feed of two events. *)
Example main_on_date :
  exists h',
    main (mkArgs (PyTuple [Str "Festa"; Str "Concert"]) 300
            (Some (mkDate 15 8 2018)))
         [acte_concert; acte_festa] [] sample_stations sample_heap
    = Returned ([3], h')
    /\ deref h' 3 = Event.fromElementTree acte_festa
    /\ deref h' 0 = festa_major.
Proof. eexists; repeat split. Qed.

Lemma check_event_monotonic_witness :
  check_event festa_major (Str "Festa") = Returned true
  /\ (check_event festa_major (PyTuple ([Str "Concert"] ++ [Str "Major"]))
      = Returned true ->
      check_event festa_major
        (PyTuple ([Str "Concert"] ++ Str "Festa" :: [Str "Major"]))
      = Returned true)
  /\ (check_event festa_major
        (PyList ([Str "Concert"] ++ Str "Festa" :: [Str "Major"]))
      = Returned false ->
      check_event festa_major (PyList ([Str "Concert"] ++ [Str "Major"]))
      = Returned false).
Proof.
  split; [reflexivity |].
  apply (@check_event_monotonic R festa_major (Str "Festa")
           [Str "Concert"] [Str "Major"]).
  reflexivity.
Defined.

Lemma check_event_text_fields_only_witness :
  check_event festa_major (PyTuple [Str "Festa"; Str "Concert"])
  = check_event festa_ranked (PyTuple [Str "Festa"; Str "Concert"]).
Proof.
  apply (@check_event_text_fields_only R festa_major festa_ranked);
    reflexivity.
Defined.

(** Why the lists before the call are asked to be within the maximal
    distance: a second call on an event, with a smaller maximal distance,
    keeps what the first call put in its lists.  After a call at 30000
    kilometres, which puts the station on the other side of the Earth in
    the list, a call at 300 metres returns and leaves the station in the
    list, farther than 300 metres. *)
Lemma set_nearest_stations_keeps_far_entry :
  set_nearest_stations [0] [station_far] 30000000%R sample_heap
  = Returned (store sample_heap 0 festa_far)
  /\ set_nearest_stations [0] [station_far] 300%R
       (store sample_heap 0 festa_far)
     = Returned (store (store sample_heap 0 festa_far) 0 festa_far)
  /\ Event.coords (deref (store sample_heap 0 festa_far) 0) = Some equator_0
  /\ ~ Forall (within 300%R)
         (Event.stations_with_slots
            (deref (store (store sample_heap 0 festa_far) 0 festa_far) 0)).
Proof.
  split; [apply rank_far_first |].
  split; [apply rank_far_second |].
  split; [reflexivity |].
  simpl; intros A; inversion A as [| x l W _]; subst.
  unfold within in W; simpl in W.
  rewrite Rleb_far_300 in W; discriminate W.
Qed.

Lemma set_nearest_stations_sorted_witness :
  let h' := store sample_heap 0 festa_ranked in
  set_nearest_stations [0] sample_stations 300%R sample_heap = Returned h'
  /\ Forall (within 300%R) (Event.stations_with_slots (deref h' 0))
  /\ Forall (within 300%R) (Event.stations_with_bikes (deref h' 0))
  /\ Sorted by_distance (Event.stations_with_slots (deref h' 0))
  /\ Sorted by_distance (Event.stations_with_bikes (deref h' 0)).
Proof.
  intros h'; split; [apply rank_sample |].
  destruct (@set_nearest_stations_sorted R Real_PyFloat Real_FloatOrder
              [0] sample_stations 300%R sample_heap h' 0 equator_0
              rank_sample (or_introl eq_refl) eq_refl
              (Forall_nil _) (Forall_nil _))
    as (A & B & C & D & _).
  repeat split; assumption.
Defined.

Lemma set_nearest_stations_classifies_witness :
  let h' := store sample_heap 0 festa_ranked in
  set_nearest_stations [0] sample_stations 300%R sample_heap = Returned h'
  /\ (forall s,
        ~ (In s (map fst (Event.stations_with_slots (deref h' 0)))
           /\ In s (map fst (Event.stations_with_bikes (deref h' 0)))))
  /\ In (station_here, 0%R) (Event.stations_with_slots (deref h' 0)).
Proof.
  intros h'; split; [apply rank_sample |].
  destruct (@set_nearest_stations_classifies R Real_PyFloat
              [0] sample_stations 300%R sample_heap h' 0 equator_0
              rank_sample (or_introl eq_refl) eq_refl)
    as (A & B).
  split; [apply B; split; constructor |].
  destruct (A station_here (or_introl eq_refl)) as (d & Hd & Hc).
  change (Station.coords station_here) with equator_0 in Hd.
  rewrite haversine_equator_same in Hd; apply Returned_inj in Hd; subst d.
  apply (Hc Rleb_0_300); reflexivity.
Defined.

Lemma set_nearest_stations_skips_witness :
  Event.coords (deref sample_heap 1) = None
  /\ set_nearest_stations ([0] ++ 1 :: []) sample_stations 300%R sample_heap
     = set_nearest_stations ([0] ++ []) sample_stations 300%R sample_heap
  /\ deref (store sample_heap 0 festa_ranked) 1 = deref sample_heap 1.
Proof.
  split; [reflexivity |].
  destruct (@set_nearest_stations_skips R Real_PyFloat
              sample_stations 300%R sample_heap 1 eq_refl)
    as (A & B).
  split; [apply A | apply (B _ _ rank_sample)].
Defined.

Lemma set_nearest_stations_appends_witness :
  let h' := store sample_heap 0 festa_ranked in
  set_nearest_stations [0] sample_stations 300%R sample_heap = Returned h'
  /\ exists h'',
       set_nearest_stations [0] sample_stations 300%R h' = Returned h''
       /\ Permutation (Event.stations_with_slots (deref h'' 0))
            [(station_here, 0%R); (station_here, 0%R)].
Proof.
  intros h'; split; [apply rank_sample |].
  destruct (@set_nearest_stations_appends R Real_PyFloat
              [0] sample_stations 300%R sample_heap h' 0 equator_0
              rank_sample (or_introl eq_refl) eq_refl)
    as (_ & _ & ds & Ed & _ & _ & _ & _ & h'' & E2 & P2 & _).
  exists h''; split; [exact E2 |].
  rewrite distances_sample in Ed; apply Returned_inj in Ed; subst ds.
  unfold new_with_slots in P2; simpl in P2.
  rewrite Rleb_0_300, Rleb_far_300 in P2; exact P2.
Defined.

(** * More on the matcher *)

Lemma string_append_assoc (a b c : string) :
  ((a ++ b) ++ c)%string = (a ++ (b ++ c))%string.
Proof. induction a as [| x a IH]; simpl; [reflexivity | rewrite IH; reflexivity]. Qed.

Lemma Substring_trans (t u s : string) :
  Substring t u -> Substring u s -> Substring t s.
Proof.
  intros (a & b & ->) (c & d & ->).
  exists (c ++ a)%string, (b ++ d)%string.
  rewrite !string_append_assoc; reflexivity.
Qed.

Section MatcherAlgebra.
Context {F : Type}.
Implicit Types (event : Event.t F) (v : value) (xs ys : list value).

Lemma forallb_same_members (A : Type) (f : A -> bool) (l1 l2 : list A) :
  (forall x, In x l1 <-> In x l2) -> forallb f l1 = forallb f l2.
Proof.
  intros M; apply eq_true_iff_eq; rewrite !forallb_forall.
  split; intros Hf x Hx; apply Hf, M, Hx.
Qed.

Lemma existsb_same_members (A : Type) (f : A -> bool) (l1 l2 : list A) :
  (forall x, In x l1 <-> In x l2) -> existsb f l1 = existsb f l2.
Proof.
  intros M; apply eq_true_iff_eq; rewrite !existsb_exists.
  split; intros (x & Hx & Fx); exists x; split; trivial; apply M, Hx.
Qed.

(** The result on a list, and on a tuple, depends on which members it has,
    not on their order nor on how many times each is there. *)
Theorem check_event_same_members event xs ys :
  (forall v, In v xs <-> In v ys) ->
  check_event event (PyList xs) = check_event event (PyList ys)
  /\ check_event event (PyTuple xs) = check_event event (PyTuple ys).
Proof.
  intros M; rewrite !check_event_holds; simpl.
  rewrite (forallb_same_members _ _ _ M), (existsb_same_members _ _ _ M).
  split; reflexivity.
Qed.

(** A list of lists is the list of all their members, a tuple of tuples
    likewise, and a list or a tuple of one member is this member: a list
    inside a list, or a tuple inside a tuple, can be flattened. *)
Theorem check_event_flatten event xs ys v :
  check_event event (PyList (PyList xs :: ys))
  = check_event event (PyList (xs ++ ys))
  /\ check_event event (PyTuple (PyTuple xs :: ys))
     = check_event event (PyTuple (xs ++ ys))
  /\ check_event event (PyList [v]) = check_event event v
  /\ check_event event (PyTuple [v]) = check_event event v.
Proof.
  rewrite !check_event_holds; simpl.
  rewrite forallb_app, existsb_app, andb_true_r, orb_false_r.
  repeat split; reflexivity.
Qed.

(** The result on the members of two lists together is the conjunction of
    the results on the two lists, and on two tuples the disjunction. *)
Theorem check_event_app event xs ys :
  check_event event (PyList (xs ++ ys))
  = (a <- check_event event (PyList xs) ;;
     b <- check_event event (PyList ys) ;;
     Returned (a && b))
  /\ check_event event (PyTuple (xs ++ ys))
     = (a <- check_event event (PyTuple xs) ;;
        b <- check_event event (PyTuple ys) ;;
        Returned (a || b)).
Proof.
  rewrite !check_event_holds; simpl.
  rewrite forallb_app, existsb_app; split; reflexivity.
Qed.

(** A member that is neither a string nor a list nor a tuple makes a list
    fail, whatever the other members are, and is ignored in a tuple. *)
Theorem check_event_other_member event xs ys (ty : pytype) :
  check_event event (PyList (xs ++ Other ty :: ys)) = Returned false
  /\ check_event event (PyTuple (xs ++ Other ty :: ys))
     = check_event event (PyTuple (xs ++ ys)).
Proof.
  rewrite !check_event_holds; simpl.
  rewrite forallb_app, !existsb_app; simpl.
  rewrite andb_false_r; split; reflexivity.
Qed.

(** The empty string is found in every event, and a string found in an
    event has all its substrings found in it. *)
Theorem check_event_substring event (t u : string) :
  check_event event (Str EmptyString) = Returned true
  /\ (Substring t u ->
      check_event event (Str u) = Returned true ->
      check_event event (Str t) = Returned true).
Proof.
  split.
  - simpl; destruct (Event.name event); reflexivity.
  - intros Htu E; simpl in *; apply Returned_inj in E; f_equal.
    rewrite !orb_true_iff, !str_in_Substring in *.
    destruct E as [[E | E] | E]; [left; left | left; right | right];
      apply (Substring_trans Htu E).
Qed.

End MatcherAlgebra.

(** * More on the ranker *)

Section RankerMore.
Context {F : Type} `{PyFloat F}.
Implicit Types (e : Event.t F) (h : heap F) (l : loc) (events : list loc)
  (stations : list (Station.t F)) (max_distance : F).

Lemma iter_pass_same_but_lists max_distance ds (k : nat) e :
  same_but_lists e (Nat.iter k (pass max_distance ds) e).
Proof.
  induction k as [| k IH]; [repeat split |].
  simpl Nat.iter; unfold same_but_lists in *; simpl; exact IH.
Qed.

Lemma ranked_same_but_lists stations max_distance (k : nat) e :
  same_but_lists e (ranked stations max_distance k e).
Proof.
  unfold ranked.
  destruct (Event.coords e) as [c |]; [| repeat split].
  destruct (distances c stations); [| repeat split].
  apply iter_pass_same_but_lists.
Qed.

Lemma set_nearest_stations_next_loc events stations max_distance h h' :
  set_nearest_stations events stations max_distance h = Returned h' ->
  next_loc h' = next_loc h.
Proof.
  revert h; induction events as [| l0 rest IH]; intros h E; simpl in E.
  - apply Returned_inj in E; subst; reflexivity.
  - destruct (Event.coords (deref h l0)) as [c0 |]; [| apply IH, E].
    destruct (for_stations c0 stations max_distance (deref h l0))
      as [e | err]; simpl in E; [| discriminate E].
    rewrite (IH _ E); reflexivity.
Qed.

(** The call changes the two result lists and nothing else: no object is
    created, every object keeps its name, address, date, hour, place and
    coordinates, and an object that is not in the list of events keeps its
    result lists as well. *)
Theorem set_nearest_stations_only_lists events stations max_distance h h' :
  set_nearest_stations events stations max_distance h = Returned h' ->
  next_loc h' = next_loc h
  /\ forall l,
       Event.name (deref h' l) = Event.name (deref h l)
       /\ Event.address (deref h' l) = Event.address (deref h l)
       /\ Event.date (deref h' l) = Event.date (deref h l)
       /\ Event.hour (deref h' l) = Event.hour (deref h l)
       /\ Event.place (deref h' l) = Event.place (deref h l)
       /\ Event.coords (deref h' l) = Event.coords (deref h l)
       /\ (~ In l events -> deref h' l = deref h l).
Proof.
  intros E; split; [apply (set_nearest_stations_next_loc _ _ _ _ E) |].
  intros l; rewrite (set_nearest_stations_ranked _ _ _ _ E l).
  destruct (ranked_same_but_lists stations max_distance
              (occurrences l events) (deref h l))
    as (A & B & C & D & G & I).
  repeat split; trivial.
  intros N; apply (count_occ_not_In Nat.eq_dec) in N.
  unfold occurrences; rewrite N; apply ranked_0.
Qed.

(** A call on two lists of events, one after the other, is a call on the
    first list followed by a call on the second. *)
Theorem set_nearest_stations_app events1 events2 stations max_distance h :
  set_nearest_stations (events1 ++ events2) stations max_distance h
  = (h1 <- set_nearest_stations events1 stations max_distance h ;;
     set_nearest_stations events2 stations max_distance h1).
Proof.
  revert h; induction events1 as [| l0 rest IH]; intros h; simpl;
    [reflexivity |].
  destruct (Event.coords (deref h l0)) as [c0 |]; [| apply IH].
  destruct (for_stations c0 stations max_distance (deref h l0))
    as [e | err]; simpl; [apply IH | reflexivity].
Qed.

Lemma distances_returns coords stations :
  (forall s, In s stations ->
     exists d, haversine_distance coords (Station.coords s) = Returned d) ->
  exists ds, distances coords stations = Returned ds.
Proof.
  induction stations as [| s0 rest IH]; intros Hd; simpl.
  - exists []; reflexivity.
  - destruct (Hd s0 (or_introl eq_refl)) as [d0 E0]; rewrite E0; simpl.
    destruct IH as [ds Eds]; [intros s Hs; apply Hd; right; exact Hs |].
    rewrite Eds; simpl; eexists; reflexivity.
Qed.

Lemma set_nearest_stations_returns_when events stations max_distance h :
  (exists h', set_nearest_stations events stations max_distance h = Returned h')
  <-> (forall l coords s,
         In l events -> Event.coords (deref h l) = Some coords ->
         In s stations ->
         exists d, haversine_distance coords (Station.coords s) = Returned d).
Proof.
  split.
  - intros [h' E] l c s Hl Hc Hs.
    destruct (set_nearest_stations_distances _ _ _ _ E l Hl Hc) as [ds Ed].
    destruct (distances_In _ _ Ed s Hs) as (d & Hd & _).
    exists d; exact Hd.
  - intros Hd; apply set_nearest_stations_returns.
    intros l c Hl Hc; apply distances_returns.
    intros s Hs; apply (Hd l c s Hl Hc Hs).
Qed.

(** The call returns exactly when [haversine_distance] returns on every
    event with coordinates of the list and every station; an event without
    coordinates, an empty list of events or of stations raise nothing. *)
Theorem set_nearest_stations_returns_iff events stations max_distance h :
  (exists h', set_nearest_stations events stations max_distance h = Returned h')
  <-> (forall l coords s,
         In l events -> Event.coords (deref h l) = Some coords ->
         In s stations ->
         exists d, haversine_distance coords (Station.coords s) = Returned d).
Proof. apply set_nearest_stations_returns_when. Qed.

(** The order of the events does not matter: on the same events in another
    order the call returns if and only if it returns on the first order,
    and it leaves every object the same. *)
Theorem set_nearest_stations_any_order events events' stations max_distance h :
  Permutation events events' ->
  ((exists h1,
      set_nearest_stations events stations max_distance h = Returned h1)
   <-> (exists h2,
          set_nearest_stations events' stations max_distance h = Returned h2))
  /\ (forall h1 h2,
        set_nearest_stations events stations max_distance h = Returned h1 ->
        set_nearest_stations events' stations max_distance h = Returned h2 ->
        next_loc h1 = next_loc h2 /\ forall l, deref h1 l = deref h2 l).
Proof.
  intros P; split.
  - rewrite !set_nearest_stations_returns_when.
    split; intros Hd l c s Hl; apply Hd;
      [apply Permutation_sym in P |]; apply (Permutation_in _ P Hl).
  - intros h1 h2 E1 E2; split.
    + rewrite (set_nearest_stations_next_loc _ _ _ _ E1),
              (set_nearest_stations_next_loc _ _ _ _ E2); reflexivity.
    + intros l.
      rewrite (set_nearest_stations_ranked _ _ _ _ E1 l),
              (set_nearest_stations_ranked _ _ _ _ E2 l).
      unfold occurrences.
      rewrite (proj1 (Permutation_count_occ Nat.eq_dec events events') P l).
      reflexivity.
Qed.

End RankerMore.

Section RankerOrderMore.
Context {F : Type} `{FloatOrder F}.
Implicit Types (e : Event.t F) (h : heap F) (l : loc) (events : list loc).

(** Sorting a sorted list changes nothing. *)
Lemma list_sort_sorted (A : Type) (key : A -> F) (l : list A) :
  Forall (key_ok key) l -> Sorted (key_le key) l -> list_sort key l = l.
Proof.
  intros Ok Hs; symmetry; apply list_sort_unique; trivial.
Qed.

Lemma pass_nil_sorted max_distance e :
  sorted_lists e -> pass max_distance [] e = e.
Proof.
  intros (Os & Ss & Ob & Sb).
  unfold pass, new_with_slots, new_with_bikes; simpl filter.
  rewrite !app_nil_r, set_stations_same; unfold sort_stations.
  rewrite (list_sort_sorted Os Ss), (list_sort_sorted Ob Sb).
  apply set_stations_same.
Qed.

(** With no station, a call returns and leaves as they are the events
    whose two lists are sorted by distance, such as the events a call has
    ranked before. *)
Theorem set_nearest_stations_no_stations events max_distance h :
  (forall l, In l events -> sorted_lists (deref h l)) ->
  exists h',
    set_nearest_stations events [] max_distance h = Returned h'
    /\ next_loc h' = next_loc h
    /\ forall l, deref h' l = deref h l.
Proof.
  intros Hs.
  destruct (set_nearest_stations_returns events [] max_distance h)
    as [h' E]; [intros; exists []; reflexivity |].
  exists h'; split; [exact E |]; split;
    [apply (set_nearest_stations_next_loc _ _ _ _ E) |].
  intros l; rewrite (set_nearest_stations_ranked _ _ _ _ E l).
  unfold ranked; destruct (Event.coords (deref h l)); [| reflexivity].
  simpl distances; cbv iota.
  destruct (in_dec Nat.eq_dec l events) as [I | N].
  - generalize (occurrences l events); intros k.
    induction k as [| k IH]; [reflexivity |].
    simpl Nat.iter; rewrite IH; apply pass_nil_sorted, Hs, I.
  - apply (count_occ_not_In Nat.eq_dec) in N.
    unfold occurrences; rewrite N; reflexivity.
Qed.

(** What a call leaves is sorted: the events with coordinates of the list
    whose lists held entries within the maximal distance come out with
    sorted lists, ready for the calls to come. *)
Lemma pass_sorted_lists max_distance ds e :
  Forall (within max_distance) (Event.stations_with_slots e) ->
  Forall (within max_distance) (Event.stations_with_bikes e) ->
  sorted_lists (pass max_distance ds e).
Proof.
  intros Ws Wb.
  assert (Ks : Forall (key_ok snd)
                 (Event.stations_with_slots e ++ new_with_slots max_distance ds)).
  { apply Forall_impl with (P := within max_distance); [apply within_ok |].
    apply Forall_app; split; [exact Ws | apply new_with_slots_within]. }
  assert (Kb : Forall (key_ok snd)
                 (Event.stations_with_bikes e ++ new_with_bikes max_distance ds)).
  { apply Forall_impl with (P := within max_distance); [apply within_ok |].
    apply Forall_app; split; [exact Wb | apply new_with_bikes_within]. }
  unfold sorted_lists, pass, sort_stations; simpl.
  repeat split.
  - apply list_sort_Forall; exact Ks.
  - apply list_sort_Sorted; [exact _ | exact Ks].
  - apply list_sort_Forall; exact Kb.
  - apply list_sort_Sorted; [exact _ | exact Kb].
Qed.

End RankerOrderMore.

(** * More on collecting the events *)

Section OrchestratorMore.
Context {F : Type} `{PyFloat F}.
Implicit Types (h : heap F) (feed : list (acte F)) (res : list loc)
  (key : value).

Lemma filter_map_comm (A B : Type) (f : A -> B) (p : B -> bool) (l : list A) :
  filter p (map f l) = map f (filter (fun x => p (f x)) l).
Proof.
  induction l as [| x l IH]; [reflexivity |]; simpl.
  destruct (p (f x)); simpl; rewrite IH; reflexivity.
Qed.

Lemma filter_and (A : Type) (p q : A -> bool) (l : list A) :
  filter (fun x => p x && q x) l = filter p (filter q l).
Proof.
  induction l as [| x l IH]; [reflexivity |]; simpl.
  destruct (q x), (p x) eqn:P; simpl; rewrite ?P, IH; reflexivity.
Qed.

Lemma fresh_in_step h h' (e0 : Event.t F) (n : nat) (b : bool) found :
  fresh_in (snd (alloc e0 h)) h' n found ->
  fresh_in h h' (S n) ((if b then [next_loc h] else []) ++ found)
  /\ deref h' (next_loc h) = e0.
Proof.
  simpl; intros (N & B & D & Fr); simpl in N, B, Fr.
  assert (D0 : deref h' (next_loc h) = e0).
  { rewrite Fr by lia; simpl; rewrite Nat.eqb_refl; reflexivity. }
  split; [| exact D0].
  assert (B' : Forall (fun l => next_loc h <= l < next_loc h') found).
  { eapply Forall_impl; [| exact B]; simpl; intros; lia. }
  split; [lia |]; split; [| split].
  - destruct b; simpl; [constructor; [lia | exact B'] | exact B'].
  - destruct b; simpl; [| exact D].
    constructor; [| exact D].
    intros I; rewrite Forall_forall in B; specialize (B _ I); lia.
  - intros l Hl; rewrite Fr by lia; simpl.
    assert (Nl : Nat.eqb l (next_loc h) = false) by (apply Nat.eqb_neq; lia).
    rewrite Nl; reflexivity.
Qed.

Lemma today_loop_kept feed key res h :
  exists found h',
    today_loop feed key res h = Returned (res ++ found, h')
    /\ map (deref h') found = map Event.fromElementTree (kept key feed)
    /\ fresh_in h h' (List.length feed) found.
Proof.
  revert res h; induction feed as [| t rest IH]; intros res h.
  - exists [], h; simpl; rewrite app_nil_r.
    repeat split; auto; constructor.
  - simpl today_loop.
    set (e0 := Event.fromElementTree t).
    set (h1 := store (mkHeap (S (next_loc h)) (deref h)) (next_loc h) e0).
    rewrite Nat.eqb_refl, (check_event_holds e0 key); simpl.
    destruct (IH (if holds e0 key then res ++ [next_loc h] else res) h1)
      as (found & h' & E & M & Fr).
    change h1 with (snd (alloc e0 h)) in Fr.
    destruct (@fresh_in_step h h' e0 _ (holds e0 key) found Fr) as [Fr' D0].
    exists ((if holds e0 key then [next_loc h] else []) ++ found), h'.
    split; [| split; [| exact Fr']].
    + rewrite E; destruct (holds e0 key);
        [rewrite <- app_assoc |]; reflexivity.
    + unfold kept; simpl; fold (kept key rest); fold e0.
      rewrite (check_event_holds e0 key); simpl.
      rewrite map_app, M.
      destruct (holds e0 key); simpl; rewrite ?D0; reflexivity.
Qed.

Lemma monthly_loop_fresh feed key (date : Date) res h :
  exists found h',
    monthly_loop feed key date res h = Returned (res ++ found, h')
    /\ map (deref h') found
       = filter (wanted_on date key) (map Event.fromElementTree feed)
    /\ fresh_in h h' (List.length feed) found.
Proof.
  revert res h; induction feed as [| t rest IH]; intros res h.
  - exists [], h; simpl; rewrite app_nil_r.
    repeat split; auto; constructor.
  - simpl monthly_loop.
    set (e0 := Event.fromElementTree t).
    set (h1 := store (mkHeap (S (next_loc h)) (deref h)) (next_loc h) e0).
    rewrite Nat.eqb_refl.
    assert (K : (if date_eqb (Event.date e0) date
                 then check_event e0 key else Returned false)
                = Returned (wanted_on date key e0)).
    { unfold wanted_on; rewrite check_event_holds.
      destruct (date_eqb (Event.date e0) date); reflexivity. }
    rewrite K; simpl.
    destruct (IH (if wanted_on date key e0 then res ++ [next_loc h] else res)
                h1)
      as (found & h' & E & M & Fr).
    change h1 with (snd (alloc e0 h)) in Fr.
    destruct (@fresh_in_step h h' e0 _ (wanted_on date key e0) found Fr)
      as [Fr' D0].
    exists ((if wanted_on date key e0 then [next_loc h] else []) ++ found), h'.
    split; [| split; [| exact Fr']].
    + rewrite E; destruct (wanted_on date key e0);
        [rewrite <- app_assoc |]; reflexivity.
    + simpl map; simpl filter; fold e0.
      rewrite map_app, M.
      destruct (wanted_on date key e0); simpl; rewrite ?D0; reflexivity.
Qed.

Lemma find_today_events_found feed key h :
  exists events h',
    find_today_events feed key h = Returned (events, h')
    /\ map (deref h') events
       = filter (fun e => returned_true (check_event e key))
           (map Event.fromElementTree feed)
    /\ (forall l, l < next_loc h -> deref h' l = deref h l).
Proof.
  destruct (today_loop_kept feed key [] h) as (found & h' & E & M & Fr).
  exists found, h'; simpl in E.
  split; [exact E |]; split; [| apply Fr].
  rewrite M; unfold kept; symmetry.
  apply (filter_map_comm Event.fromElementTree
           (fun e => returned_true (check_event e key))).
Qed.

(** On the elements of the feed, once they are read, what
    [find_today_events] returns when it returns: new objects for the
    events of the feed on which [check_event] returns [True], and no
    other, in the order of the feed, with empty result lists; the objects
    that were there before are what they were. *)
Theorem find_today_events_kept feed key h events h' :
  find_today_events feed key h = Returned (events, h') ->
  map (deref h') events
  = filter (fun e => returned_true (check_event e key))
      (map Event.fromElementTree feed)
  /\ Forall (fun l => check_event (deref h' l) key = Returned true) events
  /\ (forall t, In t feed ->
        check_event (Event.fromElementTree t) key = Returned true ->
        In (Event.fromElementTree t) (map (deref h') events))
  /\ Forall (fun l => Event.stations_with_slots (deref h' l) = []
                      /\ Event.stations_with_bikes (deref h' l) = [])
            events
  /\ (forall l, l < next_loc h -> deref h' l = deref h l).
Proof.
  intros E.
  destruct (find_today_events_found feed key h) as (ev & h0 & E0 & M & Fr).
  rewrite E0 in E; apply Returned_inj in E; injection E; intros <- <-.
  assert (In' : forall e, In e (map (deref h0) ev) <->
                  In e (map Event.fromElementTree feed)
                  /\ check_event e key = Returned true).
  { intros e; rewrite M, filter_In.
    rewrite (check_event_holds e key); simpl.
    split; intros (A & C); split; trivial;
      [rewrite C; reflexivity | apply Returned_inj, C]. }
  split; [exact M |]; split; [| split; [| split; [| exact Fr]]].
  - apply Forall_forall; intros l Hl.
    apply (in_map (deref h0)), In' in Hl; tauto.
  - intros t Ht Hc; apply In'; split; [apply in_map, Ht | exact Hc].
  - apply Forall_forall; intros l Hl.
    apply (in_map (deref h0)), In' in Hl; destruct Hl as [Hl _].
    apply in_map_iff in Hl; destruct Hl as (t & <- & _).
    split; reflexivity.
Qed.

(** The two searches allocate an object for each element of the feed,
    kept or not, and the objects they return are new and pairwise
    distinct: no event is twice in the list handed to the ranker. *)
Theorem find_events_new_objects feed key (date : Date) h :
  (exists events h',
     find_monthly_events feed key date h = Returned (events, h')
     /\ next_loc h' = next_loc h + List.length feed
     /\ NoDup events
     /\ Forall (fun l => next_loc h <= l < next_loc h') events)
  /\ (exists events h',
        find_today_events feed key h = Returned (events, h')
        /\ next_loc h' = next_loc h + List.length feed
        /\ NoDup events
        /\ Forall (fun l => next_loc h <= l < next_loc h') events).
Proof.
  split.
  - destruct (monthly_loop_fresh feed key date [] h)
      as (found & h' & E & _ & N & B & D & _).
    exists found, h'; auto.
  - destruct (today_loop_kept feed key [] h)
      as (found & h' & E & _ & N & B & D & _).
    exists found, h'; auto.
Qed.

(** The events found for a date are, in the same order, the events the
    search without a date finds in the same feed whose date is this date. *)
Theorem find_monthly_events_of_today feed key (date : Date) h :
  exists monthly h_m today h_t,
    find_monthly_events feed key date h = Returned (monthly, h_m)
    /\ find_today_events feed key h = Returned (today, h_t)
    /\ map (deref h_m) monthly
       = filter (date_is date) (map (deref h_t) today)
    /\ (forall e, In e (map (deref h_m) monthly)
                  <-> In e (map (deref h_t) today) /\ Event.date e = date).
Proof.
  destruct (monthly_loop_fresh feed key date [] h)
    as (fm & hm & Em & Mm & _).
  destruct (today_loop_kept feed key [] h) as (ft & ht & Et & Mt & _).
  exists fm, hm, ft, ht; split; [exact Em |]; split; [exact Et |].
  assert (M : map (deref hm) fm
              = filter (date_is date) (map (deref ht) ft)).
  { rewrite Mm, Mt; unfold kept.
    rewrite <- (filter_map_comm Event.fromElementTree
                  (fun e => returned_true (check_event e key))).
    rewrite <- (filter_and (date_is date)
                  (fun e => returned_true (check_event e key))).
    apply filter_ext; intros e.
    unfold wanted_on; rewrite date_eqb_date_is; reflexivity. }
  split; [exact M |].
  intros e; rewrite M, filter_In, date_is_true; reflexivity.
Qed.

Lemma main_today_events key (distance : Z) (monthly today : list (acte F))
    (bicing : list (Station.t F)) h events h' :
  main (mkArgs key distance None) monthly today bicing h
  = Returned (events, h') ->
  Forall2 (fun l t =>
             today_result bicing (float_of_int distance) t (deref h' l))
          events (kept key today)
  /\ (forall l, l < next_loc h -> deref h' l = deref h l).
Proof.
  unfold main; simpl.
  destruct (today_loop_kept today key [] h)
    as (found & h1 & E & M & N & B & D & Fr).
  simpl in E; unfold find_today_events; rewrite E; simpl.
  intros E2; apply bind_Returned in E2.
  destruct E2 as (h2 & E2 & R); apply Returned_inj in R.
  injection R; intros <- <-.
  pose proof (set_nearest_stations_ranked _ _ _ _ E2) as Rk.
  split.
  - assert (G : forall l, In l found ->
                  deref h2 l
                  = ranked bicing (float_of_int distance) 1 (deref h1 l)
                  /\ (forall c, Event.coords (deref h1 l) = Some c ->
                       exists ds, distances c bicing = Returned ds)).
    { intros l Hl; split.
      - rewrite Rk; unfold occurrences.
        rewrite (proj1 (NoDup_count_occ' Nat.eq_dec found) D l Hl).
        reflexivity.
      - intros c Hc.
        apply (set_nearest_stations_distances _ _ _ _ E2 l Hl Hc). }
    clear - M G.
    revert M G; generalize (kept key today); intros ts.
    revert ts; induction found as [| l found IH]; intros [| t ts] M G;
      try discriminate M; constructor.
    + simpl in M; injection M; intros M' D1.
      destruct (G l (or_introl eq_refl)) as [G1 G2].
      unfold today_result; rewrite G1, D1; unfold ranked.
      change (Event.coords (Event.fromElementTree t)) with (acte_coords t).
      rewrite D1 in G2.
      change (Event.coords (Event.fromElementTree t)) with (acte_coords t)
        in G2.
      destruct (acte_coords t) as [c |]; [| reflexivity].
      destruct (G2 c eq_refl) as [ds Ed].
      exists ds; split; [exact Ed |]; rewrite Ed; reflexivity.
    + simpl in M; injection M; intros M' _.
      apply IH; [exact M' |].
      intros l0 Hl0; apply G; right; exact Hl0.
  - intros l Hl; rewrite Rk, <- (Fr l Hl).
    assert (Nl : ~ In l found).
    { intros I; rewrite Forall_forall in B; specialize (B l I); lia. }
    apply (count_occ_not_In Nat.eq_dec) in Nl.
    unfold occurrences; rewrite Nl; apply ranked_0.
Qed.

(** Without a date, what [main] hands over when it returns: an object for
    each event of today's feed on which [check_event] returns [True], in
    the order of the feed; the event as it was read when it has no
    coordinates; else the event with, in its two lists, the stations
    within the maximal distance, those with a free slot on one side, those
    without a free slot and with a bike on the other, each list the
    stations in their order, sorted by distance.  The objects that were
    there before are what they were. *)
Theorem main_today key (distance : Z) (monthly today : list (acte F))
    (bicing : list (Station.t F)) h events h' :
  main (mkArgs key distance None) monthly today bicing h
  = Returned (events, h') ->
  Forall2 (fun l t =>
             today_result bicing (float_of_int distance) t (deref h' l))
          events (kept key today)
  /\ (forall l, l < next_loc h -> deref h' l = deref h l).
Proof. apply main_today_events. Qed.

(** On the parsed command line, feeds and stations, the calls of
    [haversine_distance] are all that can raise. *)
Lemma main_today_returns_when key (distance : Z)
    (monthly today : list (acte F)) (bicing : list (Station.t F)) h :
  (exists events h',
     main (mkArgs key distance None) monthly today bicing h
     = Returned (events, h'))
  <-> (forall t coords s,
         In t today ->
         check_event (Event.fromElementTree t) key = Returned true ->
         acte_coords t = Some coords ->
         In s bicing ->
         exists d, haversine_distance coords (Station.coords s) = Returned d).
Proof.
  unfold main; simpl.
  destruct (today_loop_kept today key [] h)
    as (found & h1 & E & M & _).
  simpl in E; unfold find_today_events; rewrite E; simpl.
  assert (K : forall t,
            In t (kept key today)
            <-> In t today
                /\ check_event (Event.fromElementTree t) key = Returned true).
  { intros t; unfold kept; rewrite filter_In.
    rewrite (check_event_holds (Event.fromElementTree t) key); simpl.
    split; intros [I Hk]; split; trivial; [rewrite Hk; reflexivity |].
    apply Returned_inj, Hk. }
  split.
  - intros (events & h' & E2); apply bind_Returned in E2.
    destruct E2 as (h2 & E2 & _).
    intros t c s Ht Hk Hc Hs.
    assert (It : In (Event.fromElementTree t) (map (deref h1) found))
      by (rewrite M; apply in_map, K; split; assumption).
    apply in_map_iff in It; destruct It as (l & Dl & Hl).
    apply (proj1 (set_nearest_stations_returns_when found bicing
                    (float_of_int distance) h1)
             (ex_intro _ h2 E2) l c s Hl); [| exact Hs].
    rewrite Dl; exact Hc.
  - intros Hd.
    destruct (proj2 (set_nearest_stations_returns_when found bicing
                       (float_of_int distance) h1)) as [h2 E2].
    { intros l c s Hl Hc Hs.
      assert (It : In (deref h1 l) (map Event.fromElementTree (kept key today)))
        by (rewrite <- M; apply in_map, Hl).
      apply in_map_iff in It; destruct It as (t & Dt & Ht).
      apply K in Ht; destruct Ht as [Ht Hk].
      apply (Hd t c s Ht Hk); [| exact Hs].
      rewrite <- Dt in Hc; exact Hc. }
    exists found, h2; rewrite E2; reflexivity.
Qed.

(** Without a date, [main] does not get to hand over its list unless
    [haversine_distance] has returned on the coordinates of every event of
    today's feed on which [check_event] returns [True] and on every
    station: a distance that raises, for an event that is kept, ends the
    program, whatever the maximal distance and wherever the event and the
    station are in their lists. *)
Theorem main_today_distances key (distance : Z)
    (monthly today : list (acte F)) (bicing : list (Station.t F))
    h events h' :
  main (mkArgs key distance None) monthly today bicing h
  = Returned (events, h') ->
  forall t coords s,
    In t today ->
    check_event (Event.fromElementTree t) key = Returned true ->
    acte_coords t = Some coords ->
    In s bicing ->
    exists d, haversine_distance coords (Station.coords s) = Returned d.
Proof.
  intros E.
  apply (proj1 (main_today_returns_when key distance monthly today bicing h)).
  exists events, h'; exact E.
Qed.

End OrchestratorMore.

Section OrchestratorOrder.
Context {F : Type} `{FloatOrder F}.

Lemma today_result_ranked (bicing : list (Station.t F)) (max_distance : F)
    (t : acte F) (e : Event.t F) :
  today_result bicing max_distance t e ->
  Forall (within max_distance) (Event.stations_with_slots e)
  /\ Forall (within max_distance) (Event.stations_with_bikes e)
  /\ Sorted by_distance (Event.stations_with_slots e)
  /\ Sorted by_distance (Event.stations_with_bikes e)
  /\ (forall s, ~ (In s (map fst (Event.stations_with_slots e))
                   /\ In s (map fst (Event.stations_with_bikes e)))).
Proof.
  unfold today_result; destruct (acte_coords t) as [c |]; cbv beta iota.
  - intros (ds & _ & E); subst e; simpl.
    pose proof (new_with_slots_within max_distance ds) as Ws.
    pose proof (new_with_bikes_within max_distance ds) as Wb.
    split; [apply list_sort_Forall, Ws |].
    split; [apply list_sort_Forall, Wb |].
    split; [| split].
    + apply (list_sort_Sorted (key := snd)).
      apply Forall_impl with (P := within max_distance);
        [apply within_ok | exact Ws].
    + apply (list_sort_Sorted (key := snd)).
      apply Forall_impl with (P := within max_distance);
        [apply within_ok | exact Wb].
    + intros s [Is Ib].
      apply in_map_iff in Is; destruct Is as (x & Ex & Hx).
      apply in_map_iff in Ib; destruct Ib as (y & Ey & Hy).
      apply list_sort_In, filter_In in Hx; destruct Hx as [_ Hx].
      apply list_sort_In, filter_In in Hy; destruct Hy as [_ Hy].
      apply andb_true_iff in Hx; destruct Hx as [_ Hx].
      apply andb_true_iff in Hy; destruct Hy as [Hy _].
      apply andb_true_iff in Hy; destruct Hy as [_ Hy].
      apply negb_true_iff in Hy.
      rewrite Ex in Hx; rewrite Ey in Hy; congruence.
  - intros E; subst e; simpl; repeat split; try constructor.
    intros s [[] _].
Qed.

(** Without a date, every event [main] hands over has its two lists
    within the maximal distance and in ascending order of distance, and no
    station in both. *)
Theorem main_today_sorted (key : value) (distance : Z)
    (monthly today : list (acte F)) (bicing : list (Station.t F))
    (h : heap F) (events : list loc) (h' : heap F) :
  main (mkArgs key distance None) monthly today bicing h
  = Returned (events, h') ->
  Forall (fun l =>
            let with_slots := Event.stations_with_slots (deref h' l) in
            let with_bikes := Event.stations_with_bikes (deref h' l) in
            Forall (within (float_of_int distance)) with_slots
            /\ Forall (within (float_of_int distance)) with_bikes
            /\ Sorted by_distance with_slots
            /\ Sorted by_distance with_bikes
            /\ (forall s, ~ (In s (map fst with_slots)
                             /\ In s (map fst with_bikes))))
         events.
Proof.
  intros E; destruct (main_today_events _ _ _ _ _ _ E) as [R _]; clear E.
  induction R as [| l t events ts R1 _ IH]; constructor; [| exact IH].
  apply today_result_ranked with (t := t) (bicing := bicing); exact R1.
Qed.

End OrchestratorOrder.

(** * The distance on the real numbers *)

Section RealDistance.
Local Open Scope R_scope.

Lemma haversine_algebra (cp sp cq sq u : R) :
  sp * sp + cp * cp = 1 -> sq * sq + cq * cq = 1 -> 0 <= u <= 1 ->
  0 <= (1 - (cq * cp + sq * sp)) / 2 + cp * cq * u <= 1.
Proof.
  intros Hp Hq Hu.
  assert (N3 : 0 <= cq * cq * (1 - (1 - 2 * u) * (1 - 2 * u))).
  { apply Rmult_le_pos; [apply Rle_0_sqr | nra]. }
  pose proof (Rle_0_sqr (cp - cq * (1 - 2 * u))) as N1.
  pose proof (Rle_0_sqr (sp - sq)) as N2.
  pose proof (Rle_0_sqr (cp + cq * (1 - 2 * u))) as N4.
  pose proof (Rle_0_sqr (sp + sq)) as N5.
  unfold Rsqr in N1, N2, N4, N5.
  split; lra.
Qed.

(** The number whose square roots are taken is between 0 and 1. *)
Lemma haversine_argument_bounds (p q y : R) :
  0 <= sin ((q - p) / 2) * sin ((q - p) / 2)
       + cos p * cos q * (sin y * sin y) <= 1.
Proof.
  assert (Hs : sin ((q - p) / 2) * sin ((q - p) / 2)
               = (1 - (cos q * cos p + sin q * sin p)) / 2).
  { rewrite <- cos_minus.
    replace (q - p) with (2 * ((q - p) / 2)) at 3 by field.
    rewrite cos_2a_sin; field. }
  pose proof (sin2_cos2 p) as Hp; pose proof (sin2_cos2 q) as Hq.
  pose proof (sin2_cos2 y) as Hy.
  unfold Rsqr in Hp, Hq, Hy.
  assert (Hu : 0 <= sin y * sin y <= 1).
  { pose proof (Rle_0_sqr (sin y)) as S; pose proof (Rle_0_sqr (cos y)) as C.
    unfold Rsqr in S, C; lra. }
  rewrite Hs; apply haversine_algebra; assumption.
Qed.

Lemma R_atan2_quadrant (y x : R) :
  0 <= y -> 0 <= x -> 0 <= R_atan2 y x <= PI / 2.
Proof.
  intros Hy Hx; unfold R_atan2.
  pose proof PI_RGT_0 as HPI.
  destruct (Rlt_dec 0 x) as [Px |].
  - destruct (atan_bound (y / x)) as [_ U].
    split; [| lra].
    destruct (Rle_lt_or_eq_dec _ _ Hy) as [Py | <-].
    + rewrite <- atan_0; apply Rlt_le, atan_increasing.
      apply Rdiv_lt_0_compat; assumption.
    + unfold Rdiv; rewrite Rmult_0_l, atan_0; lra.
  - destruct (Rlt_dec x 0); [lra |].
    destruct (Rlt_dec 0 y); [lra |].
    destruct (Rlt_dec y 0); lra.
Qed.

(** On the real numbers the number under the square roots stays between
    0 and 1, so that [math_sqrt] of the instance [Real_PyFloat] returns.
    Floats round, and the program's own [math.sqrt] can be given a number
    below 0: this is a fact about the instance and not about the
    program. *)
Lemma haversine_distance_real (a b : LatLong R) :
  exists d,
    haversine_distance a b = Returned d /\ 0 <= d <= 6371000 * PI.
Proof.
  unfold haversine_distance, earth_radius; simpl.
  rewrite !R_pow_2; simpl.
  set (p := latitude a * (PI / 180)).
  set (q := latitude b * (PI / 180)).
  set (y := (longitude b - longitude a) * (PI / 180) / 2).
  replace ((latitude b - latitude a) * (PI / 180) / 2) with ((q - p) / 2)
    by (unfold p, q; field).
  destruct (haversine_argument_bounds p q y) as [L U].
  rewrite R_sqrt_nonneg by exact L; simpl.
  rewrite R_sqrt_nonneg by lra; simpl.
  eexists; split; [reflexivity |].
  match goal with |- context [R_atan2 ?r1 ?r2] =>
    destruct (@R_atan2_quadrant r1 r2) as [A1 A2]; [apply sqrt_pos .. |]
  end.
  pose proof PI_RGT_0; split; nra.
Qed.

(** With the arithmetic of the real numbers, the distance from a point to
    itself is zero. *)
Theorem haversine_distance_real_same (a : LatLong R) :
  haversine_distance a a = Returned 0.
Proof.
  unfold haversine_distance, earth_radius; simpl.
  rewrite !R_pow_2; simpl.
  replace ((latitude a - latitude a) * (PI / 180) / 2) with 0 by field.
  replace ((longitude a - longitude a) * (PI / 180) / 2) with 0 by field.
  rewrite sin_0.
  match goal with |- context [R_sqrt ?x] =>
    replace x with 0 by ring
  end.
  rewrite R_sqrt_nonneg by lra; simpl.
  replace (1 - 0) with 1 by ring.
  rewrite R_sqrt_nonneg by lra; simpl.
  rewrite sqrt_0, sqrt_1, R_atan2_0_1; f_equal; ring.
Qed.

End RealDistance.

(** * The maximal distance *)

Section MaximalDistance.
Context {F : Type} `{PyFloat F}.
Implicit Types (e : Event.t F) (h : heap F) (l : loc) (events : list loc)
  (stations : list (Station.t F)) (max_distance : F).

Lemma distances_entries coords stations ds :
  distances coords stations = Returned ds ->
  forall x, In x ds ->
    In (fst x) stations
    /\ haversine_distance coords (Station.coords (fst x)) = Returned (snd x).
Proof.
  revert ds; induction stations as [| s0 rest IH]; intros ds E x Hx;
    simpl in E.
  - apply Returned_inj in E; subst ds; destruct Hx.
  - destruct (haversine_distance coords (Station.coords s0))
      as [d0 | err] eqn:Ed; simpl in E; [| discriminate E].
    destruct (distances coords rest) as [ds' | err]; simpl in E;
      [| discriminate E].
    apply Returned_inj in E; subst ds.
    destruct Hx as [<- | Hx]; [split; [left; reflexivity | exact Ed] |].
    destruct (IH ds' eq_refl x Hx) as [I Hd].
    split; [right; exact I | exact Hd].
Qed.

Lemma copies_nil (A : Type) (k : nat) : copies k (@nil A) = [].
Proof. induction k as [| k IH]; [reflexivity | exact IH]. Qed.

Lemma filter_none (A : Type) (p : A -> bool) (l : list A) :
  (forall x, In x l -> p x = false) -> filter p l = [].
Proof.
  induction l as [| x l IH]; intros Hp; [reflexivity |]; simpl.
  rewrite (Hp x (or_introl eq_refl)); apply IH.
  intros y Hy; apply Hp; right; exact Hy.
Qed.

(** When no station is within the maximal distance of an event, the call
    adds nothing to its lists: each list has the entries it had (sorted),
    and an empty list stays empty. *)
Theorem set_nearest_stations_none_within events stations max_distance h h' l coords :
  set_nearest_stations events stations max_distance h = Returned h' ->
  Event.coords (deref h l) = Some coords ->
  (forall s d, In s stations ->
     haversine_distance coords (Station.coords s) = Returned d ->
     float_le d max_distance = false) ->
  Permutation (Event.stations_with_slots (deref h' l))
              (Event.stations_with_slots (deref h l))
  /\ Permutation (Event.stations_with_bikes (deref h' l))
                 (Event.stations_with_bikes (deref h l))
  /\ (Event.stations_with_slots (deref h l) = [] ->
      Event.stations_with_slots (deref h' l) = [])
  /\ (Event.stations_with_bikes (deref h l) = [] ->
      Event.stations_with_bikes (deref h' l) = []).
Proof.
  intros E Ec Far.
  assert (P : Permutation (Event.stations_with_slots (deref h' l))
                (Event.stations_with_slots (deref h l))
              /\ Permutation (Event.stations_with_bikes (deref h' l))
                   (Event.stations_with_bikes (deref h l))).
  { rewrite (set_nearest_stations_ranked _ _ _ _ E l); unfold ranked.
    rewrite Ec.
    destruct (distances coords stations) as [ds | err] eqn:Ed;
      [| split; apply Permutation_refl].
    assert (Ns : new_with_slots max_distance ds = []).
    { apply filter_none; intros x Hx.
      destruct (distances_entries _ _ Ed x Hx) as [I Hd].
      rewrite (Far _ _ I Hd); reflexivity. }
    assert (Nb : new_with_bikes max_distance ds = []).
    { apply filter_none; intros x Hx.
      destruct (distances_entries _ _ Ed x Hx) as [I Hd].
      rewrite (Far _ _ I Hd); reflexivity. }
    rewrite iter_pass_slots, iter_pass_bikes, Ns, Nb.
    split.
    - eapply perm_trans; [apply passes_perm |].
      rewrite copies_nil, app_nil_r; apply Permutation_refl.
    - eapply perm_trans; [apply passes_perm |].
      rewrite copies_nil, app_nil_r; apply Permutation_refl. }
  destruct P as [Ps Pb]; split; [exact Ps |]; split; [exact Pb |].
  split; intros E0.
  - rewrite E0 in Ps; apply Permutation_sym, Permutation_nil in Ps; exact Ps.
  - rewrite E0 in Pb; apply Permutation_sym, Permutation_nil in Pb; exact Pb.
Qed.

Context `{!FloatOrder F}.

Lemma new_with_slots_wider max_distance wider ds (x : entry F) :
  float_le max_distance wider = true ->
  In x (new_with_slots max_distance ds) -> In x (new_with_slots wider ds).
Proof.
  intros Hw Hx; apply filter_In in Hx; destruct Hx as [I Hx].
  apply andb_true_iff in Hx; destruct Hx as [Hd Hs].
  apply filter_In; split; [exact I |].
  rewrite (float_le_trans _ _ _ Hd Hw), Hs; reflexivity.
Qed.

Lemma new_with_bikes_wider max_distance wider ds (x : entry F) :
  float_le max_distance wider = true ->
  In x (new_with_bikes max_distance ds) -> In x (new_with_bikes wider ds).
Proof.
  intros Hw Hx; apply filter_In in Hx; destruct Hx as [I Hx].
  apply andb_true_iff in Hx; destruct Hx as [Hx Hb].
  apply andb_true_iff in Hx; destruct Hx as [Hd Hs].
  apply filter_In; split; [exact I |].
  rewrite (float_le_trans _ _ _ Hd Hw), Hs, Hb; reflexivity.
Qed.

(** A greater maximal distance loses no station: whether the call returns
    does not depend on the maximal distance, and every entry the lists
    get with a maximal distance is in the lists they get with a greater
    one. *)
Theorem set_nearest_stations_wider events stations max_distance wider h :
  float_le max_distance wider = true ->
  ((exists h1,
      set_nearest_stations events stations max_distance h = Returned h1)
   <-> (exists h2,
          set_nearest_stations events stations wider h = Returned h2))
  /\ (forall h1 h2,
        set_nearest_stations events stations max_distance h = Returned h1 ->
        set_nearest_stations events stations wider h = Returned h2 ->
        forall l x,
          (In x (Event.stations_with_slots (deref h1 l)) ->
           In x (Event.stations_with_slots (deref h2 l)))
          /\ (In x (Event.stations_with_bikes (deref h1 l)) ->
              In x (Event.stations_with_bikes (deref h2 l)))).
Proof.
  intros Hw; split.
  - rewrite !set_nearest_stations_returns_when; reflexivity.
  - intros h1 h2 E1 E2 l x.
    rewrite (set_nearest_stations_ranked _ _ _ _ E1 l),
            (set_nearest_stations_ranked _ _ _ _ E2 l).
    unfold ranked.
    destruct (Event.coords (deref h l)) as [c |]; [| tauto].
    destruct (distances c stations) as [ds | err]; [| tauto].
    rewrite !iter_pass_slots, !iter_pass_bikes, !passes_In.
    split; intros [I | [K I]]; [left | right | left | right]; trivial;
      split; trivial.
    + apply new_with_slots_wider with (max_distance := max_distance);
        assumption.
    + apply new_with_bikes_wider with (max_distance := max_distance);
        assumption.
Qed.

End MaximalDistance.

(** * The order of the stations *)

Section StationOrder.
Context {F : Type} `{PyFloat F}.
Implicit Types (h : heap F) (l : loc) (events : list loc)
  (stations : list (Station.t F)) (max_distance : F).

Lemma filter_perm (A : Type) (p : A -> bool) (l1 l2 : list A) :
  Permutation l1 l2 -> Permutation (filter p l1) (filter p l2).
Proof.
  induction 1 as [| x l1 l2 _ IH | x y l | l1 l2 l3 _ IH1 _ IH2]; simpl.
  - apply perm_nil.
  - destruct (p x); [apply perm_skip |]; exact IH.
  - destruct (p x), (p y); try apply Permutation_refl; apply perm_swap.
  - apply (perm_trans IH1 IH2).
Qed.

Lemma copies_perm (A : Type) (k : nat) (l1 l2 : list A) :
  Permutation l1 l2 -> Permutation (copies k l1) (copies k l2).
Proof.
  intros P; induction k as [| k IH]; [apply perm_nil |].
  rewrite !copies_S; apply Permutation_app; assumption.
Qed.

Lemma distances_perm coords stations stations' :
  Permutation stations stations' ->
  forall ds ds',
    distances coords stations = Returned ds ->
    distances coords stations' = Returned ds' ->
    Permutation ds ds'.
Proof.
  induction 1 as [| s l1 l2 P IH | s1 s2 l | l1 l2 l3 P1 IH1 P2 IH2];
    intros ds ds' E E'; simpl in E, E'.
  - apply Returned_inj in E, E'; subst; apply perm_nil.
  - destruct (haversine_distance coords (Station.coords s)) as [d | err];
      simpl in E, E'; [| discriminate E].
    destruct (distances coords l1) as [r | err]; simpl in E;
      [| discriminate E].
    destruct (distances coords l2) as [r' | err]; simpl in E';
      [| discriminate E'].
    apply Returned_inj in E, E'; subst.
    apply perm_skip, IH; reflexivity.
  - destruct (haversine_distance coords (Station.coords s1)) as [d1 | err];
      destruct (haversine_distance coords (Station.coords s2)) as [d2 | err'];
      simpl in E, E'; try discriminate E; try discriminate E'.
    destruct (distances coords l) as [r | err]; simpl in E, E';
      [| discriminate E].
    apply Returned_inj in E, E'; subst; apply perm_swap.
  - destruct (distances_returns coords l2) as [ds2 E2].
    { intros s Hs; apply (Permutation_in _ (Permutation_sym P1)) in Hs.
      destruct (distances_In _ _ E s Hs) as (d & Hd & _).
      exists d; exact Hd. }
    apply perm_trans with ds2; [apply IH1 | apply IH2]; assumption.
Qed.

(** The order of the stations decides the order of the entries of equal
    distance and nothing else: on the same stations in another order the
    call returns if and only if it returns on the first order, and the two
    lists of every event have the same entries. *)
Theorem set_nearest_stations_station_order events stations stations' max_distance h :
  Permutation stations stations' ->
  ((exists h1,
      set_nearest_stations events stations max_distance h = Returned h1)
   <-> (exists h2,
          set_nearest_stations events stations' max_distance h
          = Returned h2))
  /\ (forall h1 h2,
        set_nearest_stations events stations max_distance h = Returned h1 ->
        set_nearest_stations events stations' max_distance h = Returned h2 ->
        forall l,
          Permutation (Event.stations_with_slots (deref h1 l))
                      (Event.stations_with_slots (deref h2 l))
          /\ Permutation (Event.stations_with_bikes (deref h1 l))
                         (Event.stations_with_bikes (deref h2 l))).
Proof.
  intros P; split.
  - rewrite !set_nearest_stations_returns_when.
    split; intros Hd l c s Hl Hc Hs; apply (Hd l c s Hl Hc);
      [apply Permutation_sym in P |]; apply (Permutation_in _ P Hs).
  - intros h1 h2 E1 E2 l.
    destruct (in_dec Nat.eq_dec l events) as [I | N].
    + destruct (Event.coords (deref h l)) as [c |] eqn:Ec.
      * destruct (set_nearest_stations_distances _ _ _ _ E1 l I Ec)
          as [ds Ed].
        destruct (set_nearest_stations_distances _ _ _ _ E2 l I Ec)
          as [ds' Ed'].
        assert (Pd : Permutation ds ds')
          by (eapply distances_perm; eassumption).
        rewrite (set_nearest_stations_ranked _ _ _ _ E1 l),
                (set_nearest_stations_ranked _ _ _ _ E2 l).
        rewrite (@ranked_passes _ _ stations max_distance _ _ c ds Ec Ed),
                (@ranked_passes _ _ stations' max_distance _ _ c ds' Ec Ed').
        rewrite !iter_pass_slots, !iter_pass_bikes.
        split.
        -- eapply perm_trans; [apply passes_perm |].
           eapply perm_trans; [| apply Permutation_sym, passes_perm].
           apply Permutation_app_head, copies_perm, filter_perm, Pd.
        -- eapply perm_trans; [apply passes_perm |].
           eapply perm_trans; [| apply Permutation_sym, passes_perm].
           apply Permutation_app_head, copies_perm, filter_perm, Pd.
      * rewrite (set_nearest_stations_ranked _ _ _ _ E1 l),
                (set_nearest_stations_ranked _ _ _ _ E2 l).
        rewrite !ranked_no_coords by exact Ec.
        split; apply Permutation_refl.
    + apply (count_occ_not_In Nat.eq_dec) in N.
      rewrite (set_nearest_stations_ranked _ _ _ _ E1 l),
              (set_nearest_stations_ranked _ _ _ _ E2 l).
      unfold occurrences; rewrite N, !ranked_0.
      split; apply Permutation_refl.
Qed.

End StationOrder.

(** * The further properties on the sample data *)

Lemma main_today_sample :
  exists h',
    main (mkArgs (PyTuple [Str "Festa"; Str "Concert"]) 300 None)
         [] [acte_concert; acte_festa] sample_stations sample_heap
    = Returned ([2; 3], h').
Proof.
  eexists; unfold main, find_today_events; simpl.
  rewrite haversine_equator_same, haversine_equator_far; simpl.
  rewrite Rleb_0_300, Rleb_far_300; reflexivity.
Qed.

Lemma sorted_lists_festa_ranked : sorted_lists festa_ranked.
Proof.
  assert (K : key_ok (F := R) (snd (A := Station.t R)) (station_here, 0%R))
    by (apply Rleb_true; simpl; lra).
  assert (K' : key_ok (F := R) (snd (A := Station.t R)) (station_bikes, 0%R))
    by (apply Rleb_true; simpl; lra).
  unfold sorted_lists; simpl; repeat split; repeat constructor; assumption.
Qed.

Lemma check_event_same_members_witness :
  check_event festa_major (PyList [Str "Festa"; Str "Major"])
  = check_event festa_major (PyList [Str "Major"; Str "Festa"; Str "Major"])
  /\ check_event festa_major (PyTuple [Str "Festa"; Str "Major"])
     = check_event festa_major
         (PyTuple [Str "Major"; Str "Festa"; Str "Major"]).
Proof.
  apply (@check_event_same_members R festa_major).
  intros v; simpl; tauto.
Defined.

Lemma check_event_substring_witness :
  Substring "esta" "Festa"
  /\ check_event festa_major (Str "Festa") = Returned true
  /\ check_event festa_major (Str "esta") = Returned true.
Proof.
  assert (S : Substring "esta" "Festa")
    by (exists "F"%string, EmptyString; reflexivity).
  split; [exact S |]; split; [reflexivity |].
  apply (proj2 (@check_event_substring R festa_major "esta" "Festa") S).
  reflexivity.
Defined.

Lemma set_nearest_stations_only_lists_witness :
  set_nearest_stations [0] sample_stations 300%R sample_heap
  = Returned (store sample_heap 0 festa_ranked)
  /\ Event.name (deref (store sample_heap 0 festa_ranked) 0)
     = Event.name (deref sample_heap 0)
  /\ deref (store sample_heap 0 festa_ranked) 1 = deref sample_heap 1.
Proof.
  split; [apply rank_sample |].
  destruct (@set_nearest_stations_only_lists R Real_PyFloat
              [0] sample_stations 300%R sample_heap _ rank_sample)
    as (_ & A).
  split; [apply (A 0) | apply (A 1)].
  simpl; intros [E | []]; discriminate E.
Defined.

Lemma set_nearest_stations_any_order_witness :
  Permutation [0; 1] [1; 0]
  /\ ((exists h1,
         set_nearest_stations [0; 1] sample_stations 300%R sample_heap
         = Returned h1)
      <-> (exists h2,
             set_nearest_stations [1; 0] sample_stations 300%R sample_heap
             = Returned h2)).
Proof.
  split; [apply perm_swap |].
  apply (@set_nearest_stations_any_order R Real_PyFloat
           [0; 1] [1; 0] sample_stations 300%R sample_heap).
  apply perm_swap.
Defined.

Lemma set_nearest_stations_no_stations_witness :
  exists h',
    set_nearest_stations [0] [] 300%R (store sample_heap 0 festa_ranked)
    = Returned h'
    /\ deref h' 0 = festa_ranked.
Proof.
  destruct (@set_nearest_stations_no_stations R Real_PyFloat Real_FloatOrder
              [0] 300%R (store sample_heap 0 festa_ranked))
    as (h' & E & _ & D).
  - intros l [<- | []]; apply sorted_lists_festa_ranked.
  - exists h'; split; [exact E | apply D].
Defined.

Lemma main_today_witness :
  exists h',
    main (mkArgs (PyTuple [Str "Festa"; Str "Concert"]) 300 None)
         [] [acte_concert; acte_festa] sample_stations sample_heap
    = Returned ([2; 3], h')
    /\ today_result sample_stations 300%R acte_festa (deref h' 3)
    /\ deref h' 0 = festa_major.
Proof.
  destruct main_today_sample as [h' E]; exists h'; split; [exact E |].
  destruct (@main_today R Real_PyFloat _ _ _ _ _ _ _ _ E) as [A B].
  split; [| apply B; simpl; lia].
  inversion A as [| ? ? ? ? _ A']; subst.
  inversion A' as [| ? ? ? ? A1 _]; subst; exact A1.
Defined.

Lemma main_today_sorted_witness :
  exists h',
    main (mkArgs (PyTuple [Str "Festa"; Str "Concert"]) 300 None)
         [] [acte_concert; acte_festa] sample_stations sample_heap
    = Returned ([2; 3], h')
    /\ Sorted by_distance (Event.stations_with_slots (deref h' 3))
    /\ Forall (within 300%R) (Event.stations_with_slots (deref h' 3)).
Proof.
  destruct main_today_sample as [h' E]; exists h'; split; [exact E |].
  pose proof (@main_today_sorted R Real_PyFloat Real_FloatOrder
                _ _ _ _ _ _ _ _ E) as A.
  inversion A as [| ? ? _ A']; subst.
  inversion A' as [| ? ? A1 _]; subst.
  destruct A1 as (W & _ & S & _); split; assumption.
Defined.

Lemma set_nearest_stations_none_within_witness :
  set_nearest_stations [0] [station_far] 300%R sample_heap
  = Returned (store sample_heap 0 festa_major)
  /\ Event.stations_with_slots (deref (store sample_heap 0 festa_major) 0)
     = [].
Proof.
  assert (E : set_nearest_stations [0] [station_far] 300%R sample_heap
              = Returned (store sample_heap 0 festa_major)).
  { simpl; rewrite haversine_equator_far; simpl.
    rewrite Rleb_far_300; reflexivity. }
  split; [exact E |].
  destruct (@set_nearest_stations_none_within R Real_PyFloat
              [0] [station_far] 300%R sample_heap _ 0 equator_0 E eq_refl)
    as (_ & _ & A & _).
  - intros s d [<- | []] Hd.
    change (Station.coords station_far) with equator_180 in Hd.
    rewrite haversine_equator_far in Hd; apply Returned_inj in Hd; subst d.
    apply Rleb_far_300.
  - apply A; reflexivity.
Defined.

Lemma set_nearest_stations_wider_witness :
  Rleb 300 30000000 = true
  /\ ((exists h1,
         set_nearest_stations [0] [station_far] 300%R sample_heap
         = Returned h1)
      <-> (exists h2,
             set_nearest_stations [0] [station_far] 30000000%R sample_heap
             = Returned h2)).
Proof.
  assert (L : Rleb 300 30000000 = true) by (apply Rleb_true; lra).
  split; [exact L |].
  apply (@set_nearest_stations_wider R Real_PyFloat Real_FloatOrder
           [0] [station_far] 300%R 30000000%R sample_heap L).
Defined.

Lemma set_nearest_stations_station_order_witness :
  Permutation sample_stations (rev sample_stations)
  /\ ((exists h1,
         set_nearest_stations [0] sample_stations 300%R sample_heap
         = Returned h1)
      <-> (exists h2,
             set_nearest_stations [0] (rev sample_stations) 300%R sample_heap
             = Returned h2)).
Proof.
  split; [apply Permutation_rev |].
  apply (@set_nearest_stations_station_order R Real_PyFloat
           [0] sample_stations (rev sample_stations) 300%R sample_heap).
  apply Permutation_rev.
Defined.

Lemma find_today_events_kept_witness :
  exists h',
    find_today_events [acte_concert; acte_festa] (Str "Festa") sample_heap
    = Returned ([3], h')
    /\ map (deref h') [3]
       = filter (fun e => returned_true (check_event e (Str "Festa")))
           (map Event.fromElementTree [acte_concert; acte_festa]).
Proof.
  eexists; split; [reflexivity |].
  apply (@find_today_events_kept R [acte_concert; acte_festa] (Str "Festa")
           sample_heap [3] _ eq_refl).
Defined.

Lemma main_today_distances_witness :
  exists h',
    main (mkArgs (PyTuple [Str "Festa"; Str "Concert"]) 300 None)
         [] [acte_concert; acte_festa] sample_stations sample_heap
    = Returned ([2; 3], h')
    /\ exists d,
         haversine_distance equator_0 (Station.coords station_far)
         = Returned d.
Proof.
  destruct main_today_sample as [h' E]; exists h'; split; [exact E |].
  apply (@main_today_distances R Real_PyFloat _ _ _ _ _ _ _ _ E
           acte_festa equator_0 station_far).
  - right; left; reflexivity.
  - reflexivity.
  - reflexivity.
  - right; right; left; reflexivity.
Defined.
